(** * Space Explorer: the paginated, deduplicated image feed

    A shallow embedding of the feed store of the frontend
    ([context/ImageDataContext]: [ImageDataProvider] and [useImageData]),
    with the properties of its specification.

    Conventions of the embedding.
    - A React state cell ([useState]) is a field of [FeedState]; calling its
      setter writes the field, and a callback reads the value last written
      (the component has re-rendered in between).
    - A ref ([useRef]) is a field too; it is read and written directly, as
      [ref.current] is.
    - [fetchPage] is an async function with one suspension point, the call
      of [sourcesAPI.getSources].  It is split there: [fetchPage_start] is
      what runs synchronously at the call, [fetchPage_settle] what runs when
      the promise settles.  The requests sent to the remote source are
      logged in the world, and the fetches that wait for their answer are
      kept, each with the [offset] its continuation captured.
    - JavaScript strings are sequences of characters below 256. *)

From Stdlib Require Import Ascii.
From Stdlib Require QArith.
From stdpp Require Import gmap strings list sorting pretty numbers.

(** ** Strings: [String.prototype.trim] *)

Module JsString.

(** White space and line terminators of ECMAScript below code 256:
    TAB, LF, VT, FF, CR, SP and NBSP. *)
Definition is_white (c : ascii) : bool :=
  match c with
  | "009" | "010" | "011" | "012" | "013" | " " | "160" => true
  | _ => false
  end%char.

Fixpoint trimStart (s : string) : string :=
  match s with
  | String c r => if is_white c then trimStart r else s
  | EmptyString => EmptyString
  end.

Definition trimEnd (s : string) : string :=
  String.rev (trimStart (String.rev s)).

Definition trim (s : string) : string := trimEnd (trimStart s).

(** Truthiness of a string: non-empty. *)
Definition truthy (s : string) : bool :=
  match s with EmptyString => false | String _ _ => true end.

End JsString.

(** ** Data model *)

(** The [number] of an optional relevance score. *)
Abbreviation number := QArith_base.Q.

(** [ImageData] of the source. *)
Record ImageData := mkImageData {
  id : string;
  name : string;
  description : string;
  launch_date : string;
  image_url : string;
  canonical_url : option string;
  type : string;
  keywords : list string;
  photographer : string;
  search : bool;
  confidence_score : option number;
}.

(** [Source] of [api/interfaces]: a raw record of the catalog, with the
    fields of [ImageData].  The interface declares [id] a string and
    [image_url] optional; [fetchPage] treats both as possibly absent
    ([it?.id ?? ...], [it.image_url || '']), and so does the model. *)
Record Source := mkSource {
  src_id : option string;
  src_name : string;
  src_description : string;
  src_launch_date : string;
  src_image_url : option string;
  src_canonical_url : option string;
  src_type : string;
  src_keywords : list string;
  src_photographer : string;
  src_search : bool;
  src_confidence_score : option number;
}.

(** The parameters of [sourcesAPI.getSources], as [fetchPage] builds them:
    [{ offset, limit: PAGE_SIZE }], with [q] added for a search.  An offset
    is a natural number: 0 or the length of an array. *)
Record SourcesParams := mkParams {
  p_offset : nat;
  p_limit : nat;
  p_q : option string;
}.

(** How the promise of [sourcesAPI.getSources] settles: it resolves with a
    response whose [data] is an array (or is missing), or it rejects.  An
    entry of the array may be [null]. *)
Inductive Response :=
| Resolved (data : option (list (option Source)))
| Rejected.

Definition PAGE_SIZE : nat := 60.

(** State of [ImageDataProvider]. *)
Record FeedState := mkFeed {
  images : list ImageData;
  loading : bool;
  error : option string;
  hasMore : bool;
  isLoadingMore : bool;
  isLoadingRef : bool;
  loadedIdsRef : gset string;
}.

Definition setImages (f : list ImageData → list ImageData) (s : FeedState) :=
  mkFeed (f (images s)) (loading s) (error s) (hasMore s) (isLoadingMore s)
         (isLoadingRef s) (loadedIdsRef s).
Definition setLoading (b : bool) (s : FeedState) :=
  mkFeed (images s) b (error s) (hasMore s) (isLoadingMore s)
         (isLoadingRef s) (loadedIdsRef s).
Definition setError (e : option string) (s : FeedState) :=
  mkFeed (images s) (loading s) e (hasMore s) (isLoadingMore s)
         (isLoadingRef s) (loadedIdsRef s).
Definition setHasMore (b : bool) (s : FeedState) :=
  mkFeed (images s) (loading s) (error s) b (isLoadingMore s)
         (isLoadingRef s) (loadedIdsRef s).
Definition setIsLoadingMore (b : bool) (s : FeedState) :=
  mkFeed (images s) (loading s) (error s) (hasMore s) b
         (isLoadingRef s) (loadedIdsRef s).
Definition set_isLoadingRef (b : bool) (s : FeedState) :=
  mkFeed (images s) (loading s) (error s) (hasMore s) (isLoadingMore s)
         b (loadedIdsRef s).
Definition set_loadedIdsRef (x : gset string) (s : FeedState) :=
  mkFeed (images s) (loading s) (error s) (hasMore s) (isLoadingMore s)
         (isLoadingRef s) x.

(** The [useState] and [useRef] initial values. *)
Definition initialFeed : FeedState :=
  mkFeed [] true None true false false ∅.

(** ** [fetchPage] *)

(** [`tmp-${offset}-${i}`] *)
Definition tmpId (offset i : nat) : string :=
  "tmp-" +:+ pretty offset +:+ "-" +:+ pretty i.

(** The callback of [.map]: [{...it, id: it?.id ?? tmp, image_url:
    it.image_url || ''}]. *)
Definition toImageData (offset : nat) (i : nat) (it : Source) : ImageData :=
  {| id := default (tmpId offset i) (src_id it);
     name := src_name it;
     description := src_description it;
     launch_date := src_launch_date it;
     image_url := match src_image_url it with
                  | Some u => if JsString.truthy u then u else ""
                  | None => ""
                  end;
     canonical_url := src_canonical_url it;
     type := src_type it;
     keywords := src_keywords it;
     photographer := src_photographer it;
     search := src_search it;
     confidence_score := src_confidence_score it |}.

(** [.filter(Boolean)] on an array of records and nulls. *)
Definition filterBoolean (data : list (option Source)) : list Source :=
  omap (λ x, x) data.

(** [(response.data ?? []).filter(Boolean).map(...)] *)
Definition incomingItems (offset : nat)
    (data : option (list (option Source))) : list ImageData :=
  imap (toImageData offset) (filterBoolean (default [] data)).

(** [incomingItems.filter(item => { ... })]: the callback reads the set of
    loaded ids and adds the id of every item it keeps, so the set is threaded
    through the traversal.  The result is the kept items and the set after
    the last item. *)
Fixpoint uniqueItems (loaded : gset string) (incoming : list ImageData)
    : list ImageData * gset string :=
  match incoming with
  | [] => ([], loaded)
  | item :: rest =>
      let isNew := negb (bool_decide (id item ∈ loaded)) in
      if isNew then
        let '(kept, loaded') := uniqueItems ({[id item]} ∪ loaded) rest in
        (item :: kept, loaded')
      else uniqueItems loaded rest
  end.

(** [params] of [fetchPage]: [q] is set when the query is non-empty after
    trimming. *)
Definition fetchParams (offset : nat) (searchQuery : option string)
    : SourcesParams :=
  {| p_offset := offset;
     p_limit := PAGE_SIZE;
     p_q := match searchQuery with
            | Some s =>
                if JsString.truthy s && JsString.truthy (JsString.trim s)
                then Some (JsString.trim s) else None
            | None => None
            end |}.

(** The part of [fetchPage] before the [await]. *)
Definition fetchPage_enter (offset : nat) (s : FeedState) : FeedState :=
  let s := set_isLoadingRef true s in
  if bool_decide (0 < offset) then setIsLoadingMore true s else s.

(** The rest of the [try] block, once the response is there. *)
Definition fetchPage_resolved (offset : nat)
    (data : option (list (option Source))) (s : FeedState) : FeedState :=
  let incoming := incomingItems offset data in
  let s := if bool_decide (offset = 0) then set_loadedIdsRef ∅ s else s in
  let '(unique, loaded') := uniqueItems (loadedIdsRef s) incoming in
  let s := set_loadedIdsRef loaded' s in
  let s := setImages (λ prev,
             if bool_decide (offset = 0) then unique else prev ++ unique) s in
  setHasMore (bool_decide (length incoming = PAGE_SIZE)) s.

(** The [catch] block. *)
Definition fetchPage_catch (s : FeedState) : FeedState :=
  setError (Some "Failed to fetch space images") s.

(** The [finally] block. *)
Definition fetchPage_finally (s : FeedState) : FeedState :=
  setLoading false (setIsLoadingMore false (set_isLoadingRef false s)).

(** What runs when the promise settles. *)
Definition fetchPage_settle (offset : nat) (r : Response) (s : FeedState)
    : FeedState :=
  fetchPage_finally
    match r with
    | Resolved data => fetchPage_resolved offset data s
    | Rejected => fetchPage_catch s
    end.

(** ** The hook [useImageData] and the event loop *)

(** Besides the state of the provider, the world records what the remote
    source has seen ([requests], oldest first) and the calls of [fetchPage]
    that are suspended at their [await] ([inflight]: the [offset] each
    continuation holds). *)
Record World := mkWorld {
  feed : FeedState;
  requests : list SourcesParams;
  inflight : list nat;
}.

Definition initialWorld : World := mkWorld initialFeed [] [].

(** A call of [fetchPage], up to its suspension: the flags are set, the
    request is sent, the continuation waits. *)
Definition fetchPage_start (offset : nat) (searchQuery : option string)
    (w : World) : World :=
  mkWorld (fetchPage_enter offset (feed w))
          (requests w ++ [fetchParams offset searchQuery])
          (inflight w ++ [offset]).

(** The [k]-th suspended fetch gets its answer and runs to its end. *)
Definition settle (k : nat) (r : Response) (w : World) : World :=
  match inflight w !! k with
  | Some offset =>
      mkWorld (fetchPage_settle offset r (feed w)) (requests w)
              (delete k (inflight w))
  | None => w
  end.

(** [loadMore(startIndex, stopIndex, items, searchQuery)], up to the
    suspension of the fetch it may start.  Nothing follows the [await].
    [hasMore] is the state cell (the value of the render that made the
    callback), [isLoadingRef.current] is read from the ref itself.
    [stopIndex] is a number and [items.length - 1] is -1 for no items, hence
    the integers. *)
Definition loadMore (startIndex stopIndex : Z) (items : list ImageData)
    (searchQuery : option string) (w : World) : World :=
  if negb (hasMore (feed w)) || isLoadingRef (feed w) then w
  else if bool_decide (stopIndex < Z.of_nat (length items) - 1)%Z then w
  else fetchPage_start (length items) searchQuery w.

(** [refresh(searchQuery)], up to the suspension of its fetch. *)
Definition refresh (searchQuery : option string) (w : World) : World :=
  let s := setLoading true (feed w) in
  let s := setError None s in
  let s := setImages (λ _, []) s in
  let s := setHasMore true s in
  let s := setIsLoadingMore false s in
  let s := set_loadedIdsRef ∅ s in
  fetchPage_start 0 searchQuery (mkWorld s (requests w) (inflight w)).

(** What can happen at a turn of the event loop: a caller invokes one of
    the three operations the hook returns, or a pending request settles.
    The effect of [useImageData] on mount is [CallFetchPage 0 None]. *)
Inductive Event :=
| CallFetchPage (offset : nat) (searchQuery : option string)
| CallLoadMore (startIndex stopIndex : Z) (items : list ImageData)
               (searchQuery : option string)
| CallRefresh (searchQuery : option string)
| Settle (k : nat) (r : Response).

Definition step (w : World) (e : Event) : World :=
  match e with
  | CallFetchPage offset q => fetchPage_start offset q w
  | CallLoadMore a b items q => loadMore a b items q w
  | CallRefresh q => refresh q w
  | Settle k r => settle k r w
  end.

Definition run (w : World) (es : list Event) : World := foldl step w es.

(** The events that are triggers of [loadMore]. *)
Definition isLoadMore (e : Event) : bool :=
  match e with CallLoadMore _ _ _ _ => true | _ => false end.

(** The ids of a sequence of records, in order. *)
Definition ids (l : list ImageData) : list string := id <$> l.

(** The invariant of the feed: no id twice among the items, and every id
    among the items is in the set of loaded ids. *)
Definition feed_inv (s : FeedState) : Prop :=
  NoDup (ids (images s)) ∧ ∀ x, x ∈ ids (images s) → x ∈ loadedIdsRef s.

(** The [i]-th record of a page is a first occurrence, relative to the set
    [loaded]: its id is neither loaded nor the id of an earlier record of the
    page. *)
Definition first_occurrence (loaded : gset string) (page : list ImageData)
    (i : nat) : Prop :=
  ∃ x, page !! i = Some x ∧ (id x ∉ loaded) ∧
       (∀ j y, j < i → page !! j = Some y → id y ≠ id x).

(** The set the page is deduplicated against: empty for the first page, the
    loaded ids otherwise. *)
Definition dedupBase (offset : nat) (s : FeedState) : gset string :=
  if bool_decide (offset = 0) then ∅ else loadedIdsRef s.

(** ** Scenarios of the specification *)

(** A catalog entry with the decimal numeral of [n] as its id. *)
Definition catalogEntry (n : nat) : Source :=
  {| src_id := Some (pretty n);
     src_name := "image " +:+ pretty n;
     src_description := "";
     src_launch_date := "";
     src_image_url := Some ("https://images.example/" +:+ pretty n);
     src_canonical_url := None;
     src_type := "image";
     src_keywords := [];
     src_photographer := "";
     src_search := false;
     src_confidence_score := None |}.

(** The response with the entries [first], ..., [first + count - 1]. *)
Definition catalogPage (first count : nat) : Response :=
  Resolved (Some ((λ n, Some (catalogEntry n)) <$> seq first count)).

(** Scenario A: the fetch on mount gets the ids 0 to 59; the grid has
    rendered up to the last item and asks for more; that fetch gets the ids
    40 to 99. *)
Definition scenarioA_first_events : list Event :=
  [CallFetchPage 0 None; Settle 0 (catalogPage 0 60)].

Definition scenarioA_first : World := run initialWorld scenarioA_first_events.

Definition scenarioA_events : list Event :=
  scenarioA_first_events ++
  [CallLoadMore 0 59 (images (feed scenarioA_first)) None;
   Settle 0 (catalogPage 40 60)].

Definition scenarioA_second : World := run initialWorld scenarioA_events.

(** The state in which the fetch on mount has failed. *)
Definition mountFailed : World :=
  run initialWorld [CallFetchPage 0 None; Settle 0 Rejected].

(** A second record of id 7, with another name. *)
Definition twin : Source :=
  {| src_id := Some "7"; src_name := "twin"; src_description := "";
     src_launch_date := ""; src_image_url := None;
     src_canonical_url := None; src_type := "image";
     src_keywords := []; src_photographer := ""; src_search := false;
     src_confidence_score := None |}.

(** A page in which the first two records share an id, followed by a record
    of its own id. *)
Definition twinPage : list (option Source) :=
  [Some (catalogEntry 7); Some twin; Some (catalogEntry 8)].

(** A session in which one record, of id 6, is loaded. *)
Definition oneLoaded : World :=
  run initialWorld [CallFetchPage 0 None; Settle 0 (catalogPage 6 1)].

(** A record without id and without image address. *)
Definition anonymous : Source :=
  {| src_id := None; src_name := "anonymous"; src_description := "";
     src_launch_date := ""; src_image_url := None;
     src_canonical_url := None; src_type := "image";
     src_keywords := []; src_photographer := ""; src_search := false;
     src_confidence_score := None |}.

(** A response of sixty entries, the first of which is null. *)
Definition holedPage : list (option Source) :=
  None :: ((λ n, Some (catalogEntry n)) <$> seq 1 59).

(** ** The search context ([ImageSearchContext]) *)

Module SearchContext.

(** [searchTerm] is the text of the input, [activeSearchTerm] the term that
    was submitted last. *)
Record State := mkState {
  searchTerm : string;
  activeSearchTerm : string;
}.

Definition initial : State := mkState "" "".

Definition setSearchTerm (value : string) (s : State) : State :=
  mkState value (activeSearchTerm s).

(** [performSearch(term)]: [term ?? searchTerm] becomes the active term. *)
Definition performSearch (term : option string) (s : State) : State :=
  mkState (searchTerm s) (default (searchTerm s) term).

(** [clean] of [useImageSearch]. *)
Definition clean (s : State) : State := setSearchTerm "" s.

End SearchContext.

(** ** The grid ([Grid]) *)

Module Grid.

(** What the component returns. *)
Inductive View :=
| Spinner
| ErrorText (message : string)
| NoImages
| Masonry (items : list ImageData) (loadingMore : bool).

(** The chain [if (loading) ... if (error) ... if (images.length === 0) ...]
    of the component; an empty message is falsy. *)
Definition render (s : FeedState) : View :=
  if loading s then Spinner
  else if from_option JsString.truthy false (error s)
       then ErrorText (default "" (error s))
  else if bool_decide (length (images s) = 0) then NoImages
  else Masonry (images s) (isLoadingMore s).

(** [isItemLoaded] of the infinite loader. *)
Definition isItemLoaded (index : Z) (items : list ImageData) : bool :=
  bool_decide (index < Z.of_nat (length items))%Z.

(** The effects on mount, in the order of the hooks: [fetchPage(0)] of
    [useImageData], then [refresh(activeSearchTerm)] of the grid, the active
    term being the empty string. *)
Definition mount : World :=
  refresh (Some (SearchContext.activeSearchTerm SearchContext.initial))
          (fetchPage_start 0 None initialWorld).

(** The effect [refresh(activeSearchTerm)] has [activeSearchTerm] as its
    dependency: after a change of the search context it runs if the active
    term is another one than before. *)
Definition searchEffect (before after : SearchContext.State) (w : World)
    : World :=
  if bool_decide (SearchContext.activeSearchTerm after =
                  SearchContext.activeSearchTerm before)
  then w
  else refresh (Some (SearchContext.activeSearchTerm after)) w.

End Grid.

(** ** The client of the remote interface ([api]) *)

Module Api.

(** The two places that hold the token: the local storage of the browser
    and the default headers of the axios instance
    ([api.defaults.headers.common]). *)
Record Client := mkClient {
  localStorage : gmap string string;
  commonHeaders : gmap string string;
}.

(** [apiUtils.setAuthToken] *)
Definition setAuthToken (token : string) (c : Client) : Client :=
  mkClient (<["authToken" := token]> (localStorage c))
           (<["Authorization" := "Bearer " +:+ token]> (commonHeaders c)).

(** [apiUtils.removeAuthToken] *)
Definition removeAuthToken (c : Client) : Client :=
  mkClient (delete "authToken" (localStorage c))
           (delete "Authorization" (commonHeaders c)).

(** [apiUtils.getAuthToken]: [null] is [None]. *)
Definition getAuthToken (c : Client) : option string :=
  localStorage c !! "authToken".

(** [apiUtils.isAuthenticated]: [!!localStorage.getItem('authToken')]. *)
Definition isAuthenticated (c : Client) : bool :=
  from_option JsString.truthy false (localStorage c !! "authToken").

(** The request interceptor, on the headers of a request. *)
Definition requestInterceptor (c : Client) (headers : gmap string string)
    : gmap string string :=
  match localStorage c !! "authToken" with
  | Some token =>
      if JsString.truthy token
      then <["Authorization" := "Bearer " +:+ token]> headers
      else headers
  | None => headers
  end.

(** The error handler of the response interceptor, on the client; [status]
    is [error.response?.status].  The handler rejects in every case. *)
Definition responseErrorInterceptor (status : option nat) (c : Client)
    : Client :=
  if bool_decide (status = Some 401)
  then mkClient (delete "authToken" (localStorage c)) (commonHeaders c)
  else c.

End Api.

(** ** The search box and its history ([SearchBox]) *)

Module SearchBox.

Definition ITEMS_PER_PAGE : nat := 30.

(** [SearchHistoryEntry] of [api/interfaces]. *)
Record SearchHistoryEntry := mkEntry {
  id : string;
  search_term : string;
  timestamp : string;
  created_at : string;
}.

(** [SearchHistoryParams], as [fetchSearchHistory] builds them. *)
Record SearchHistoryParams := mkParams {
  p_offset : nat;
  p_limit : nat;
}.

(** [SearchHistoryResponse]; [total] is a number, kept as an integer. *)
Record SearchHistoryResponse := mkResponse {
  r_success : bool;
  r_data : list SearchHistoryEntry;
  r_total : Z;
}.

(** [DeleteResponse] *)
Record DeleteResponse := mkDeleteResponse {
  d_success : bool;
  d_message : string;
}.

(** How the promises of [searchAPI.getHistory] and
    [searchAPI.deleteSearchEntry] settle. *)
Inductive HistoryAnswer :=
| HistoryResolved (r : SearchHistoryResponse)
| HistoryRejected.

Inductive DeleteAnswer :=
| DeleteResolved (r : DeleteResponse)
| DeleteRejected.

(** The state cells and the timer ref of the component.  [total] is
    decremented without a bound, hence an integer.  [hideTimeoutRef] holds
    the handle of a timer or [null]. *)
Record State := mkState {
  showHistory : bool;
  searchHistory : list SearchHistoryEntry;
  isLoadingHistory : bool;
  isLoadingMore : bool;
  offset : nat;
  hasMore : bool;
  total : Z;
  hideTimeoutRef : option nat;
}.

Definition setShowHistory (b : bool) (s : State) : State :=
  mkState b (searchHistory s) (isLoadingHistory s) (isLoadingMore s)
          (offset s) (hasMore s) (total s) (hideTimeoutRef s).
Definition setSearchHistory (l : list SearchHistoryEntry) (s : State) : State :=
  mkState (showHistory s) l (isLoadingHistory s) (isLoadingMore s)
          (offset s) (hasMore s) (total s) (hideTimeoutRef s).
Definition setIsLoadingHistory (b : bool) (s : State) : State :=
  mkState (showHistory s) (searchHistory s) b (isLoadingMore s)
          (offset s) (hasMore s) (total s) (hideTimeoutRef s).
Definition setIsLoadingMore (b : bool) (s : State) : State :=
  mkState (showHistory s) (searchHistory s) (isLoadingHistory s) b
          (offset s) (hasMore s) (total s) (hideTimeoutRef s).
Definition setOffset (n : nat) (s : State) : State :=
  mkState (showHistory s) (searchHistory s) (isLoadingHistory s)
          (isLoadingMore s) n (hasMore s) (total s) (hideTimeoutRef s).
Definition setHasMore (b : bool) (s : State) : State :=
  mkState (showHistory s) (searchHistory s) (isLoadingHistory s)
          (isLoadingMore s) (offset s) b (total s) (hideTimeoutRef s).
Definition setTotal (n : Z) (s : State) : State :=
  mkState (showHistory s) (searchHistory s) (isLoadingHistory s)
          (isLoadingMore s) (offset s) (hasMore s) n (hideTimeoutRef s).
Definition set_hideTimeoutRef (t : option nat) (s : State) : State :=
  mkState (showHistory s) (searchHistory s) (isLoadingHistory s)
          (isLoadingMore s) (offset s) (hasMore s) (total s) t.

(** The [useState] and [useRef] initial values. *)
Definition initialState : State :=
  mkState false [] false false 0 true 0 None.

(** The component in its surroundings: the search context it writes, the
    timers that are set and have neither fired nor been cleared ([armed];
    [setTimeout] returns the handle [nextTimer], a positive integer), the
    requests sent, and the calls suspended at their [await], each with what
    its continuation holds ([loadMore] and [currentOffset] for a fetch of
    the history, the id for a deletion). *)
Record World := mkWorld {
  box : State;
  search : SearchContext.State;
  armed : gset nat;
  nextTimer : nat;
  historyRequests : list SearchHistoryParams;
  pendingHistory : list (bool * nat);
  deleteRequests : list string;
  pendingDeletes : list string;
}.

Definition initialWorld : World :=
  mkWorld initialState SearchContext.initial ∅ 1 [] [] [] [].

Definition withBox (f : State → State) (w : World) : World :=
  mkWorld (f (box w)) (search w) (armed w) (nextTimer w)
          (historyRequests w) (pendingHistory w)
          (deleteRequests w) (pendingDeletes w).

Definition withSearch (f : SearchContext.State → SearchContext.State)
    (w : World) : World :=
  mkWorld (box w) (f (search w)) (armed w) (nextTimer w)
          (historyRequests w) (pendingHistory w)
          (deleteRequests w) (pendingDeletes w).

(** [clearHideTimeout] *)
Definition clearHideTimeout (w : World) : World :=
  match hideTimeoutRef (box w) with
  | Some t =>
      mkWorld (set_hideTimeoutRef None (box w)) (search w)
              (armed w ∖ {[t]}) (nextTimer w)
              (historyRequests w) (pendingHistory w)
              (deleteRequests w) (pendingDeletes w)
  | None => w
  end.

(** [scheduleHide] *)
Definition scheduleHide (w : World) : World :=
  let w := clearHideTimeout w in
  let t := nextTimer w in
  mkWorld (set_hideTimeoutRef (Some t) (box w)) (search w)
          ({[t]} ∪ armed w) (S t)
          (historyRequests w) (pendingHistory w)
          (deleteRequests w) (pendingDeletes w).

(** The timer of handle [t] fires, if it is still armed: its callback hides
    the history. *)
Definition timerFires (t : nat) (w : World) : World :=
  if bool_decide (t ∈ armed w) then
    mkWorld (setShowHistory false (box w)) (search w)
            (armed w ∖ {[t]}) (nextTimer w)
            (historyRequests w) (pendingHistory w)
            (deleteRequests w) (pendingDeletes w)
  else w.

(** [fetchSearchHistory(loadMore)], up to its [await]. *)
Definition fetchSearchHistory (loadMore : bool) (w : World) : World :=
  let b := box w in
  let b' :=
    if loadMore then setIsLoadingMore true b
    else setSearchHistory []
           (setHasMore true (setOffset 0 (setIsLoadingHistory true b))) in
  let currentOffset := if loadMore then offset b else 0 in
  mkWorld b' (search w) (armed w) (nextTimer w)
          (historyRequests w ++ [mkParams currentOffset ITEMS_PER_PAGE])
          (pendingHistory w ++ [(loadMore, currentOffset)])
          (deleteRequests w) (pendingDeletes w).

(** The rest of the [try] block of [fetchSearchHistory]. *)
Definition fetchSearchHistory_resolved (loadMore : bool) (currentOffset : nat)
    (r : SearchHistoryResponse) (b : State) : State :=
  if r_success r then
    let newItems := r_data r in
    let totalItems := r_total r in
    let b := setTotal totalItems b in
    let b :=
      if loadMore then
        setOffset (currentOffset + ITEMS_PER_PAGE)
                  (setSearchHistory (searchHistory b ++ newItems) b)
      else setOffset ITEMS_PER_PAGE (setSearchHistory newItems b) in
    let totalLoaded :=
      if loadMore then currentOffset + length newItems
      else length newItems in
    setHasMore (bool_decide (Z.of_nat totalLoaded < totalItems)%Z) b
  else b.

(** What runs when the promise of [getHistory] settles; the [catch] block
    only logs. *)
Definition fetchSearchHistory_settle (loadMore : bool) (currentOffset : nat)
    (a : HistoryAnswer) (b : State) : State :=
  let b := match a with
           | HistoryResolved r =>
               fetchSearchHistory_resolved loadMore currentOffset r b
           | HistoryRejected => b
           end in
  setIsLoadingMore false (setIsLoadingHistory false b).

(** The [k]-th suspended fetch of the history gets its answer. *)
Definition settleHistory (k : nat) (a : HistoryAnswer) (w : World) : World :=
  match pendingHistory w !! k with
  | Some (loadMore, currentOffset) =>
      mkWorld (fetchSearchHistory_settle loadMore currentOffset a (box w))
              (search w) (armed w) (nextTimer w)
              (historyRequests w) (delete k (pendingHistory w))
              (deleteRequests w) (pendingDeletes w)
  | None => w
  end.

(** [handleDeleteHistoryItem(searchId)], up to its [await]. *)
Definition handleDeleteHistoryItem (searchId : string) (w : World) : World :=
  mkWorld (box w) (search w) (armed w) (nextTimer w)
          (historyRequests w) (pendingHistory w)
          (deleteRequests w ++ [searchId]) (pendingDeletes w ++ [searchId]).

(** What runs when the promise of [deleteSearchEntry] settles. *)
Definition handleDeleteHistoryItem_settle (searchId : string)
    (a : DeleteAnswer) (b : State) : State :=
  match a with
  | DeleteResolved r =>
      if d_success r then
        setTotal (total b - 1)
          (setSearchHistory
             (filter (λ item, id item ≠ searchId) (searchHistory b)) b)
      else b
  | DeleteRejected => b
  end.

(** The [k]-th suspended deletion gets its answer. *)
Definition settleDelete (k : nat) (a : DeleteAnswer) (w : World) : World :=
  match pendingDeletes w !! k with
  | Some searchId =>
      mkWorld (handleDeleteHistoryItem_settle searchId a (box w))
              (search w) (armed w) (nextTimer w)
              (historyRequests w) (pendingHistory w)
              (deleteRequests w) (delete k (pendingDeletes w))
  | None => w
  end.

(** The handlers of the input, of the history icon and of the dropdown. *)
Definition handleInputChange (value : string) (w : World) : World :=
  let w := withSearch (SearchContext.setSearchTerm value) w in
  if showHistory (box w) then withBox (setShowHistory false) w else w.

Definition handleHistoryHover (w : World) : World :=
  fetchSearchHistory false
    (withBox (setShowHistory true) (clearHideTimeout w)).

Definition handleHistoryLeave (w : World) : World := scheduleHide w.

Definition handleDropdownEnter (w : World) : World := clearHideTimeout w.

Definition handleDropdownLeave (w : World) : World :=
  withBox (setShowHistory false) w.

Definition handleHistoryItemClick (searchTerm : string) (w : World) : World :=
  withSearch (SearchContext.performSearch (Some searchTerm))
    (withBox (setShowHistory false)
       (withSearch (SearchContext.setSearchTerm searchTerm) w)).

Definition handleSearch (w : World) : World :=
  withBox (setShowHistory false)
    (withSearch (SearchContext.performSearch None) w).

Definition handleKeyDown (key : string) (w : World) : World :=
  if bool_decide (key = "Enter") then handleSearch w else w.

(** The callback of the intersection observer of the infinite scroll. *)
Definition observerCallback (isIntersecting : bool) (w : World) : World :=
  if isIntersecting && hasMore (box w) && negb (isLoadingMore (box w))
  then fetchSearchHistory true w
  else w.

(** What can happen at a turn of the event loop. *)
Inductive Event :=
| InputChange (value : string)
| HistoryHover
| HistoryLeave
| DropdownEnter
| DropdownLeave
| HistoryItemClick (searchTerm : string)
| DeleteClick (searchId : string)
| SearchClick
| KeyDown (key : string)
| Intersection (isIntersecting : bool)
| TimerFires (t : nat)
| SettleHistory (k : nat) (a : HistoryAnswer)
| SettleDelete (k : nat) (a : DeleteAnswer).

Definition step (w : World) (e : Event) : World :=
  match e with
  | InputChange value => handleInputChange value w
  | HistoryHover => handleHistoryHover w
  | HistoryLeave => handleHistoryLeave w
  | DropdownEnter => handleDropdownEnter w
  | DropdownLeave => handleDropdownLeave w
  | HistoryItemClick searchTerm => handleHistoryItemClick searchTerm w
  | DeleteClick searchId => handleDeleteHistoryItem searchId w
  | SearchClick => handleSearch w
  | KeyDown key => handleKeyDown key w
  | Intersection isIntersecting => observerCallback isIntersecting w
  | TimerFires t => timerFires t w
  | SettleHistory k a => settleHistory k a w
  | SettleDelete k a => settleDelete k a w
  end.

Definition run (w : World) (es : list Event) : World := foldl step w es.

End SearchBox.

(** ** The detail view ([ImageView]) *)

Module ImageView.

(** [ImageViewData] of [ImageViewContext]: [image_url] is optional here. *)
Record ImageViewData := mkImageViewData {
  id : string;
  name : string;
  description : string;
  launch_date : string;
  image_url : option string;
  canonical_url : option string;
  type : string;
  keywords : list string;
  photographer : string;
  search : bool;
  confidence_score : option number;
}.

(** [toLowerCase] on a character below 256: the letters A to Z and the
    capital letters of codes 192 to 222, the multiplication sign 215
    excepted, move up by 32. *)
Definition lowerChar (c : ascii) : ascii :=
  let n := nat_of_ascii c in
  if (65 <=? n) && (n <=? 90) then ascii_of_nat (n + 32)
  else if (192 <=? n) && (n <=? 222) && negb (n =? 215)
       then ascii_of_nat (n + 32)
  else c.

Fixpoint toLowerCase (s : string) : string :=
  match s with
  | EmptyString => EmptyString
  | String c r => String (lowerChar c) (toLowerCase r)
  end.

(** [s.endsWith(suffix)] *)
Definition endsWith (s suffix : string) : bool :=
  String.prefix (String.rev suffix) (String.rev s).

(** [getImageSrc], on the selected record ([null] is [None]); the result is
    [None] when it is the [image_url] of a record that has none. *)
Definition getImageSrc (imageData : option ImageViewData) : option string :=
  match imageData with
  | None => Some ""
  | Some d =>
      let canonicalUrl := canonical_url d in
      if from_option JsString.truthy false canonicalUrl
         && endsWith (toLowerCase (default "" canonicalUrl)) ".tif"
      then image_url d
      else if from_option JsString.truthy false canonicalUrl
           then canonicalUrl
      else image_url d
  end.

End ImageView.

(** ** Notions for the statements *)

(** All the characters of a string are white space. *)
Fixpoint all_white (s : string) : bool :=
  match s with
  | EmptyString => true
  | String c r => JsString.is_white c && all_white r
  end.

(** A raw record carries no id. *)
Definition lacksId (o : option Source) : bool :=
  match o with
  | Some it => match src_id it with None => true | Some _ => false end
  | None => true
  end.

(** The set of loaded ids is exactly the set of the ids of the items. *)
Definition feed_exact (s : FeedState) : Prop :=
  loadedIdsRef s = list_to_set (ids (images s)).

(** The events that are calls of [refresh]. *)
Definition isRefresh (e : Event) : bool :=
  match e with CallRefresh _ => true | _ => false end.

(** A string holds no hyphen. *)
Definition no_dash (s : string) : Prop :=
  ∀ a b, s ≠ a +:+ String "-" b.

(** The offsets of the history are multiples of the page size: the offset of
    the state, those of the requests sent and those the pending fetches
    hold. *)
Definition history_inv (w : SearchBox.World) : Prop :=
  Nat.divide SearchBox.ITEMS_PER_PAGE (SearchBox.offset (SearchBox.box w)) ∧
  Forall (λ p, SearchBox.p_limit p = SearchBox.ITEMS_PER_PAGE ∧
               Nat.divide SearchBox.ITEMS_PER_PAGE (SearchBox.p_offset p))
         (SearchBox.historyRequests w) ∧
  Forall (λ lc : bool * nat, Nat.divide SearchBox.ITEMS_PER_PAGE lc.2)
         (SearchBox.pendingHistory w).

(** A timer that is armed is the one the ref holds. *)
Definition timer_inv (w : SearchBox.World) : Prop :=
  ∀ t, t ∈ SearchBox.armed w →
       SearchBox.hideTimeoutRef (SearchBox.box w) = Some t.


Definition isSubmit (e : SearchBox.Event) : bool :=
  match e with
  | SearchBox.SearchClick | SearchBox.HistoryItemClick _ => true
  | SearchBox.KeyDown key => bool_decide (key = "Enter")
  | _ => false
  end.

(** ** Properties of the traversal [uniqueItems] *)

Section UniqueItems.
Implicit Types (loaded : gset string) (l : list ImageData).

Lemma uniqueItems_cons_old loaded x l :
  id x ∈ loaded → uniqueItems loaded (x :: l) = uniqueItems loaded l.
Proof. intros H. simpl. by rewrite bool_decide_eq_true_2. Qed.

Lemma uniqueItems_cons_new loaded x l :
  id x ∉ loaded →
  uniqueItems loaded (x :: l) =
    (x :: (uniqueItems ({[id x]} ∪ loaded) l).1,
     (uniqueItems ({[id x]} ∪ loaded) l).2).
Proof.
  intros H. simpl. rewrite bool_decide_eq_false_2; [|done]. simpl.
  by destruct (uniqueItems _ l).
Qed.

(** The set after the traversal: the kept ids were added. *)
Lemma uniqueItems_loaded loaded l :
  (uniqueItems loaded l).2 =
    loaded ∪ list_to_set (ids (uniqueItems loaded l).1).
Proof.
  revert loaded. induction l as [|x l IH]; intros loaded.
  - simpl. set_solver.
  - destruct (decide (id x ∈ loaded)) as [Hin|Hnin].
    + rewrite uniqueItems_cons_old; auto.
    + rewrite uniqueItems_cons_new; auto. simpl. rewrite IH. set_solver.
Qed.

(** It is also the old set with all the ids of the page. *)
Lemma uniqueItems_loaded_page loaded l :
  (uniqueItems loaded l).2 = loaded ∪ list_to_set (ids l).
Proof.
  revert loaded. induction l as [|x l IH]; intros loaded.
  - simpl. set_solver.
  - destruct (decide (id x ∈ loaded)) as [Hin|Hnin].
    + rewrite uniqueItems_cons_old; auto. rewrite IH. set_solver.
    + rewrite uniqueItems_cons_new; auto. simpl. rewrite IH. set_solver.
Qed.

(** No kept record has a loaded id. *)
Lemma uniqueItems_fresh loaded l x :
  x ∈ ids (uniqueItems loaded l).1 → x ∉ loaded.
Proof.
  revert loaded. induction l as [|y l IH]; intros loaded.
  - simpl. set_solver.
  - destruct (decide (id y ∈ loaded)) as [Hin|Hnin].
    + rewrite uniqueItems_cons_old; auto.
    + rewrite uniqueItems_cons_new; auto. simpl.
      intros [->|Hx]%elem_of_cons; [done|].
      apply IH in Hx. set_solver.
Qed.

(** The kept records have pairwise different ids. *)
Lemma uniqueItems_NoDup loaded l : NoDup (ids (uniqueItems loaded l).1).
Proof.
  revert loaded. induction l as [|y l IH]; intros loaded.
  - simpl. constructor.
  - destruct (decide (id y ∈ loaded)) as [Hin|Hnin].
    + rewrite uniqueItems_cons_old; auto.
    + rewrite uniqueItems_cons_new; auto. simpl. constructor; [|apply IH].
      intros Hy%uniqueItems_fresh. set_solver.
Qed.

(** The kept records are a subsequence of the page. *)
Lemma uniqueItems_sublist loaded l : sublist (uniqueItems loaded l).1 l.
Proof.
  revert loaded. induction l as [|y l IH]; intros loaded.
  - simpl. constructor.
  - destruct (decide (id y ∈ loaded)) as [Hin|Hnin].
    + rewrite uniqueItems_cons_old; auto. by apply sublist_cons.
    + rewrite uniqueItems_cons_new; auto. simpl. by apply sublist_skip.
Qed.

End UniqueItems.

(** The kept records are exactly the first occurrences of the page, in the
    order of the page: they sit at increasing positions [idx], and a position
    is in [idx] iff the record there is a first occurrence. *)
Lemma uniqueItems_first_occurrences (loaded : gset string)
    (l : list ImageData) :
  ∃ idx : list nat,
    StronglySorted lt idx ∧
    Forall2 (λ i x, l !! i = Some x) idx (uniqueItems loaded l).1 ∧
    (∀ i, i ∈ idx ↔ first_occurrence loaded l i).
Proof.
  revert loaded. induction l as [|x l IH]; intros loaded.
  - exists []. split; [constructor|]. split; [constructor|].
    intros i. split; [by intros ?%elem_of_nil|]. by intros (y & ? & _).
  - destruct (decide (id x ∈ loaded)) as [Hin|Hnin].
    + rewrite uniqueItems_cons_old by done.
      destruct (IH loaded) as (idx & Hs & Hf & Hm).
      exists (S <$> idx). split; [|split].
      * eapply StronglySorted_fmap; [|exact Hs]. intros ???; lia.
      * apply Forall2_fmap_l. eapply Forall2_impl; [|exact Hf]. by intros.
      * intros i. rewrite list_elem_of_fmap. split.
        -- intros (i' & -> & (y & Hy & Hny & Hj)%Hm).
           exists y. split; [done|]. split; [done|].
           intros [|j] z Hlt Hz; simplify_eq/=; [congruence|].
           apply (Hj j); [lia|done].
        -- intros (y & Hy & Hny & Hj). destruct i as [|i]; simplify_eq/=; [done|].
           exists i. split; [done|]. apply Hm. exists y. split; [done|].
           split; [done|]. intros j z Hlt Hz. apply (Hj (S j)); [lia|done].
    + rewrite uniqueItems_cons_new by done. simpl.
      destruct (IH ({[id x]} ∪ loaded)) as (idx & Hs & Hf & Hm).
      exists (0 :: (S <$> idx)). split; [|split].
      * constructor.
        -- eapply StronglySorted_fmap; [|exact Hs]. intros ???; lia.
        -- apply Forall_fmap, Forall_true. intros ?; simpl; lia.
      * constructor; [done|].
        apply Forall2_fmap_l. eapply Forall2_impl; [|exact Hf]. by intros.
      * intros i. rewrite elem_of_cons, list_elem_of_fmap. split.
        -- intros [->|(i' & -> & (y & Hy & Hny & Hj)%Hm)].
           { exists x. split; [done|]. split; [done|]. intros; lia. }
           exists y. split; [done|]. split; [set_solver|].
           intros [|j] z Hlt Hz; simplify_eq/=; [set_solver|].
           apply (Hj j); [lia|done].
        -- intros (y & Hy & Hny & Hj). destruct i as [|i]; [by left|].
           right. simpl in Hy. exists i. split; [done|]. apply Hm.
           exists y. split; [done|]. split.
           { assert (id x ≠ id y) by (apply (Hj 0); [lia|done]). set_solver. }
           intros j z Hlt Hz. apply (Hj (S j)); [lia|done].
Qed.

(** ** Field-wise description of the steps of [fetchPage] *)

Section Fields.
Implicit Types (s : FeedState) (w : World) (offset : nat).

Lemma resolved_images offset data s :
  images (fetchPage_resolved offset data s) =
    (if bool_decide (offset = 0) then [] else images s) ++
    (uniqueItems (dedupBase offset s) (incomingItems offset data)).1.
Proof.
  unfold fetchPage_resolved, dedupBase.
  destruct (bool_decide (offset = 0)); simpl;
    by destruct (uniqueItems _ _).
Qed.

Lemma resolved_loadedIds offset data s :
  loadedIdsRef (fetchPage_resolved offset data s) =
    (uniqueItems (dedupBase offset s) (incomingItems offset data)).2.
Proof.
  unfold fetchPage_resolved, dedupBase.
  destruct (bool_decide (offset = 0)); simpl;
    by destruct (uniqueItems _ _).
Qed.

Lemma resolved_hasMore offset data s :
  hasMore (fetchPage_resolved offset data s) =
    bool_decide (length (incomingItems offset data) = PAGE_SIZE).
Proof.
  unfold fetchPage_resolved.
  destruct (bool_decide (offset = 0)); simpl;
    by destruct (uniqueItems _ _).
Qed.

Lemma resolved_others offset data s :
  error (fetchPage_resolved offset data s) = error s ∧
  loading (fetchPage_resolved offset data s) = loading s ∧
  isLoadingMore (fetchPage_resolved offset data s) = isLoadingMore s ∧
  isLoadingRef (fetchPage_resolved offset data s) = isLoadingRef s.
Proof.
  unfold fetchPage_resolved.
  destruct (bool_decide (offset = 0)); simpl;
    by destruct (uniqueItems _ _).
Qed.

Lemma enter_fields offset s :
  images (fetchPage_enter offset s) = images s ∧
  loadedIdsRef (fetchPage_enter offset s) = loadedIdsRef s ∧
  hasMore (fetchPage_enter offset s) = hasMore s ∧
  error (fetchPage_enter offset s) = error s ∧
  loading (fetchPage_enter offset s) = loading s ∧
  isLoadingRef (fetchPage_enter offset s) = true ∧
  isLoadingMore (fetchPage_enter offset s) =
    (bool_decide (0 < offset) || isLoadingMore s).
Proof. unfold fetchPage_enter. by destruct (bool_decide (0 < offset)). Qed.

Lemma settle_lookup k r w offset :
  inflight w !! k = Some offset →
  settle k r w = mkWorld (fetchPage_settle offset r (feed w)) (requests w)
                   (delete k (inflight w)).
Proof. intros H. unfold settle. by rewrite H. Qed.

(** The fetch a call has just suspended is the last one in flight. *)
Lemma settle_started offset q r w :
  settle (length (inflight w)) r (fetchPage_start offset q w) =
    mkWorld (fetchPage_settle offset r (fetchPage_enter offset (feed w)))
            (requests w ++ [fetchParams offset q]) (inflight w).
Proof.
  erewrite settle_lookup; simpl.
  - f_equal. rewrite delete_middle. by rewrite app_nil_r.
  - by rewrite list_lookup_middle.
Qed.

(** The same for the fetch that [refresh] starts. *)
Lemma settle_refresh q r w :
  settle (length (inflight w)) r (refresh q w) =
    mkWorld
      (fetchPage_settle 0 r (fetchPage_enter 0
         (set_loadedIdsRef ∅ (setIsLoadingMore false (setHasMore true
            (setImages (λ _, []) (setError None
               (setLoading true (feed w)))))))))
      (requests w ++ [fetchParams 0 q]) (inflight w).
Proof.
  unfold refresh.
  exact (settle_started 0 q r (mkWorld _ (requests w) (inflight w))).
Qed.

End Fields.

(** ** The invariant is kept by every step *)

Section Invariant.
Implicit Types (s : FeedState) (w : World).

Lemma feed_inv_initial : feed_inv initialFeed.
Proof. split; [constructor|]. by intros x ?%elem_of_nil. Qed.

Lemma feed_inv_enter offset s :
  feed_inv s → feed_inv (fetchPage_enter offset s).
Proof.
  unfold feed_inv. destruct (enter_fields offset s) as (-> & -> & _). done.
Qed.

Lemma feed_inv_resolved offset data s :
  feed_inv s → feed_inv (fetchPage_resolved offset data s).
Proof.
  intros [Hnd Hsub]. unfold feed_inv.
  rewrite resolved_images, resolved_loadedIds, uniqueItems_loaded.
  unfold ids, dedupBase in *. rewrite fmap_app.
  pose proof (uniqueItems_NoDup
    (if bool_decide (offset = 0) then ∅ else loadedIdsRef s)
    (incomingItems offset data)) as Hu.
  pose proof (uniqueItems_fresh
    (if bool_decide (offset = 0) then ∅ else loadedIdsRef s)
    (incomingItems offset data)) as Hf.
  unfold ids in *.
  destruct (bool_decide (offset = 0)); simpl.
  - split; [done|]. set_solver.
  - split; [|set_solver].
    apply list.NoDup_app. split; [done|]. split; [|done].
    intros x Hx Hx'. apply Hf in Hx'. auto.
Qed.

Lemma feed_inv_settle offset r s :
  feed_inv s → feed_inv (fetchPage_settle offset r s).
Proof.
  intros H. destruct r as [data|]; simpl.
  - by apply (feed_inv_resolved offset data) in H.
  - done.
Qed.

Lemma feed_inv_step w e : feed_inv (feed w) → feed_inv (feed (step w e)).
Proof.
  intros H. destruct e as [offset q|a b items q|q|k r]; simpl.
  - by apply feed_inv_enter.
  - unfold loadMore.
    destruct (negb _ || _); [done|]. destruct (bool_decide _); [done|].
    by apply feed_inv_enter.
  - apply feed_inv_initial.
  - unfold settle. destruct (inflight w !! k); [|done].
    by apply feed_inv_settle.
Qed.

Lemma feed_inv_run es w : feed_inv (feed w) → feed_inv (feed (run w es)).
Proof.
  revert w. induction es as [|e es IH]; intros w H; [done|].
  simpl. by apply IH, feed_inv_step.
Qed.

End Invariant.

(** If every id of the page is loaded, nothing is kept. *)
Lemma uniqueItems_all_loaded (loaded : gset string) (l : list ImageData) :
  (∀ x, x ∈ l → id x ∈ loaded) → uniqueItems loaded l = ([], loaded).
Proof.
  induction l as [|y l IH]; intros H; [done|].
  rewrite uniqueItems_cons_old by (apply H; left).
  apply IH. intros x Hx. apply H. by right.
Qed.

Lemma length_incomingItems offset data :
  length (incomingItems offset data) =
    length (filterBoolean (default [] data)).
Proof. unfold incomingItems. by rewrite length_imap. Qed.

Lemma filterBoolean_cons_record (x : Source) (page : list (option Source)) :
  filterBoolean (Some x :: page) = x :: filterBoolean page.
Proof. reflexivity. Qed.

Lemma filterBoolean_cons_null (page : list (option Source)) :
  filterBoolean (None :: page) = filterBoolean page.
Proof. reflexivity. Qed.

Lemma filterBoolean_no_null (page : list (option Source)) :
  Forall is_Some page → length (filterBoolean page) = length page.
Proof.
  induction 1 as [|o page [x ->] _ IH]; [done|].
  rewrite filterBoolean_cons_record. simpl. by rewrite IH.
Qed.

Lemma filterBoolean_length_le (page : list (option Source)) :
  length (filterBoolean page) ≤ length page.
Proof.
  induction page as [|[x|] page IH]; [done|..].
  - rewrite filterBoolean_cons_record. simpl. lia.
  - rewrite filterBoolean_cons_null. simpl. lia.
Qed.

Lemma filterBoolean_null (page : list (option Source)) :
  None ∈ page → length (filterBoolean page) < length page.
Proof.
  induction page as [|o page IH]; [by intros ?%elem_of_nil|].
  intros [<-|Hin]%elem_of_cons.
  - rewrite filterBoolean_cons_null. simpl.
    pose proof (filterBoolean_length_le page). lia.
  - apply IH in Hin. destruct o.
    + rewrite filterBoolean_cons_record. simpl. lia.
    + rewrite filterBoolean_cons_null. simpl. lia.
Qed.

(** ** The claims *)

(** C1. Dedup invariant.  Whatever sequence of calls of [fetchPage] (direct
    or through [loadMore], and even with calls of [refresh] in between) and
    of answers of the remote source the session goes through, in whatever
    interleaving, no two items have the same id.  A page that arrives is
    filtered before the items are updated: the items become the old ones
    (none for the first page) followed by records [kept] of the page, in the
    order of the page, none of which has an id of the dedup set; and the ids
    of the kept records are added to the set. *)
Theorem C1_dedup_invariant :
  (∀ es : list Event, NoDup (ids (images (feed (run initialWorld es))))) ∧
  (∀ (offset : nat) (data : option (list (option Source))) (s : FeedState),
     ∃ kept : list ImageData,
       images (fetchPage_settle offset (Resolved data) s) =
         (if bool_decide (offset = 0) then [] else images s) ++ kept ∧
       sublist kept (incomingItems offset data) ∧
       (∀ x, id x ∈ dedupBase offset s → x ∉ kept) ∧
       loadedIdsRef (fetchPage_settle offset (Resolved data) s) =
         dedupBase offset s ∪ list_to_set (ids kept)).
Proof.
  split.
  - intros es. apply (feed_inv_run es initialWorld), feed_inv_initial.
  - intros offset data s.
    exists (uniqueItems (dedupBase offset s) (incomingItems offset data)).1.
    simpl. rewrite resolved_images, resolved_loadedIds.
    split; [done|]. split; [apply uniqueItems_sublist|]. split.
    + intros x Hx Hk.
      apply (uniqueItems_fresh (dedupBase offset s)
               (incomingItems offset data) (id x)); [|done].
      by apply list_elem_of_fmap_2.
    + apply uniqueItems_loaded.
Qed.

(** C1 on Scenario A. *)
Lemma C1_dedup_invariant_witness :
  NoDup (ids (images (feed (run initialWorld scenarioA_events)))).
Proof. exact (proj1 C1_dedup_invariant scenarioA_events). Defined.






(** C3. After a fetch has resolved, [hasMore] tells whether the page held
    exactly [PAGE_SIZE] records, counted before deduplication (the records of
    the response: its non-null entries; for a response without null entries,
    the length of the array).  So a page of [PAGE_SIZE] records whose ids are
    all loaded leaves the items as they are and sets [hasMore], and a page of
    fewer records clears it. *)
Theorem C3_hasMore_page_length (offset : nat)
    (data : option (list (option Source))) (s : FeedState) :
  let s' := fetchPage_settle offset (Resolved data) s in
  let records := filterBoolean (default [] data) in
  hasMore s' = bool_decide (length records = PAGE_SIZE) ∧
  length (incomingItems offset data) = length records ∧
  (Forall is_Some (default [] data) →
     hasMore s' = bool_decide (length (default [] data) = PAGE_SIZE)) ∧
  (0 < offset → length records = PAGE_SIZE →
     (∀ x, x ∈ incomingItems offset data → id x ∈ loadedIdsRef s) →
     hasMore s' = true ∧ images s' = images s) ∧
  (length records < PAGE_SIZE → hasMore s' = false).
Proof.
  intros s' records.
  assert (Hh : hasMore s' = bool_decide (length records = PAGE_SIZE)).
  { unfold s'. simpl. rewrite resolved_hasMore. by rewrite length_incomingItems. }
  split; [done|]. split; [apply length_incomingItems|]. split; [|split].
  - intros Hall. rewrite Hh. unfold records. by rewrite filterBoolean_no_null.
  - intros Hoff Hlen Hloaded. split.
    + rewrite Hh. by apply bool_decide_eq_true_2.
    + unfold s'. simpl. rewrite resolved_images. unfold dedupBase.
      rewrite bool_decide_eq_false_2 by lia.
      rewrite uniqueItems_all_loaded by done. simpl. by rewrite app_nil_r.
  - intros Hlt. rewrite Hh. apply bool_decide_eq_false_2. lia.
Qed.

(** C3 on Scenario A, where the second page is fetched once more: all its
    sixty ids are loaded by then. *)
Lemma C3_hasMore_page_length_witness :
  let data := Some ((λ n, Some (catalogEntry n)) <$> seq 40 60) in
  let s := fetchPage_enter 100 (feed scenarioA_second) in
  hasMore (fetchPage_settle 100 (Resolved data) s) = true ∧
  images (fetchPage_settle 100 (Resolved data) s) = images s.
Proof.
  intros data s.
  apply (C3_hasMore_page_length 100 data s).
  - lia.
  - vm_compute. reflexivity.
  - apply (proj1 (list.Forall_forall (λ x, id x ∈ loadedIdsRef s)
                    (incomingItems 100 data))).
    vm_compute. repeat (constructor; [reflexivity|]). constructor.
Defined.

(** Whatever has happened since it was started, a fetch of the first page
    that resolves replaces the items by the unique records of its page. *)
Lemma first_page_replaces_items (k : nat)
    (data : option (list (option Source))) (w : World) :
  inflight w !! k = Some 0 →
  images (feed (settle k (Resolved data) w)) =
    (uniqueItems ∅ (incomingItems 0 data)).1.
Proof.
  intros Hk. rewrite (settle_lookup k _ w 0 Hk). simpl.
  by rewrite resolved_images.
Qed.






(** The flag is one boolean for all the calls of [fetchPage]: when the fetch
    on mount and the fetch of a [refresh] overlap, the settlement of the
    first clears the flag while the other fetch is still in flight. *)
Example overlapping_fetches_share_flag :
  let w := run initialWorld
             [CallFetchPage 0 None; CallRefresh None;
              Settle 0 (catalogPage 0 60)] in
  isLoadingRef (feed w) = false ∧ inflight w = [0].
Proof. vm_compute. split; reflexivity. Qed.

(** C6. A fetch whose request is rejected sets [error] to its (non-empty)
    message and leaves the items, the dedup set and [hasMore] as they were
    before the call; when it is over the in-flight flag, [isLoadingMore] and
    [loading] are cleared, as they are after a fetch that resolved.  So the
    fetch on mount, or the fetch of a [refresh], that fails leaves the items
    empty and [loading] false. *)
Theorem C6_fetch_failure (offset : nat) (q : option string) (w : World)
    (data : option (list (option Source))) :
  let failed := settle (length (inflight w)) Rejected
                  (fetchPage_start offset q w) in
  let resolved := settle (length (inflight w)) (Resolved data)
                    (fetchPage_start offset q w) in
  let mount := run initialWorld [CallFetchPage 0 q; Settle 0 Rejected] in
  let refreshed := settle (length (inflight w)) Rejected (refresh q w) in
  (error (feed failed) = Some "Failed to fetch space images" ∧
   "Failed to fetch space images" ≠ "") ∧
  (images (feed failed) = images (feed w) ∧
   loadedIdsRef (feed failed) = loadedIdsRef (feed w) ∧
   hasMore (feed failed) = hasMore (feed w)) ∧
  (isLoadingRef (feed failed) = false ∧
   isLoadingMore (feed failed) = false ∧
   loading (feed failed) = false) ∧
  (isLoadingRef (feed resolved) = false ∧
   isLoadingMore (feed resolved) = false ∧
   loading (feed resolved) = false) ∧
  (images (feed mount) = [] ∧ loading (feed mount) = false ∧
   error (feed mount) = Some "Failed to fetch space images") ∧
  (images (feed refreshed) = [] ∧ loading (feed refreshed) = false ∧
   error (feed refreshed) = Some "Failed to fetch space images").
Proof.
  intros failed resolved mount refreshed.
  unfold failed, resolved, refreshed.
  rewrite !settle_started, settle_refresh. simpl.
  destruct (enter_fields offset (feed w)) as (Hi & Hl & Hh & _).
  rewrite Hi, Hl, Hh. repeat split; done.
Qed.

(** C7. Scenario A.  The page size is 60.  After the first fetch, of the ids
    0 to 59, there are 60 items and [hasMore] is set.  The second fetch is
    started by [loadMore], with offset 60, and gets the ids 40 to 99: there
    are then 100 items, the first 60 followed by the records of the ids 60 to
    99, and [hasMore] is set, the page having held 60 records. *)
Theorem C7_scenario_A :
  PAGE_SIZE = 60 ∧
  (length (images (feed scenarioA_first)) = 60 ∧
   ids (images (feed scenarioA_first)) = pretty <$> seq 0 60 ∧
   hasMore (feed scenarioA_first) = true) ∧
  requests scenarioA_second = [mkParams 0 60 None; mkParams 60 60 None] ∧
  (length (images (feed scenarioA_second)) = 100 ∧
   images (feed scenarioA_second) =
     images (feed scenarioA_first) ++
     ((λ n, toImageData 60 (n - 40) (catalogEntry n)) <$> seq 60 40) ∧
   ids (images (feed scenarioA_second)) = pretty <$> seq 0 100 ∧
   hasMore (feed scenarioA_second) = true).
Proof. vm_compute. repeat split; reflexivity. Qed.

(** C8, as stated, fails.  After the fetch on mount has failed, [error] is
    set, [hasMore] is still true and nothing is in flight.  A trigger of
    [loadMore] then starts a fetch (one more request, one fetch in flight),
    and [error] is still set; the fetch resolves with sixty records, which
    become the items, and [error] is still set. *)
Lemma C8_counterexample :
  let started := loadMore 0 0 (images (feed mountFailed)) None mountFailed in
  let resolved := settle 0 (catalogPage 0 60) started in
  error (feed mountFailed) = Some "Failed to fetch space images" ∧
  (requests started = requests mountFailed ++ [mkParams 0 60 None] ∧
   inflight started = [0]) ∧
  error (feed started) = Some "Failed to fetch space images" ∧
  (length (images (feed resolved)) = 60 ∧ inflight resolved = []) ∧
  error (feed resolved) = Some "Failed to fetch space images".
Proof. vm_compute. repeat split; reflexivity. Qed.

(** C8, amended.  A fetch that fails sets [error].  [refresh] clears it, at
    once, before the fetch it starts has resolved, and it stays clear when
    that fetch resolves.  [fetchPage] itself never clears it: neither the
    start of a fetch, direct or through [loadMore], nor its resolution
    changes [error]. *)
Theorem C8_error_cleared_by_refresh (offset : nat) (a b : Z)
    (items : list ImageData) (q : option string) (w : World)
    (data : option (list (option Source))) (s : FeedState) :
  error (fetchPage_settle offset Rejected s) =
    Some "Failed to fetch space images" ∧
  error (feed (refresh q w)) = None ∧
  error (feed (settle (length (inflight w)) (Resolved data) (refresh q w))) =
    None ∧
  error (feed (fetchPage_start offset q w)) = error (feed w) ∧
  error (feed (loadMore a b items q w)) = error (feed w) ∧
  error (fetchPage_settle offset (Resolved data) s) = error s.
Proof.
  split; [done|]. split; [done|]. split; [|split; [|split]].
  - rewrite settle_refresh. simpl.
    by rewrite (proj1 (resolved_others 0 data _)).
  - simpl. by destruct (enter_fields offset (feed w)) as (_&_&_&->&_).
  - unfold loadMore. destruct (negb _ || _); [done|].
    destruct (bool_decide _); [done|].
    simpl. by destruct (enter_fields (length items) (feed w)) as (_&_&_&->&_).
  - simpl. by destruct (resolved_others offset data s) as [-> _].
Qed.

(** C9. Deduplication keeps first occurrences, in order.  When a page
    resolves, the items become the old ones (none for the first page)
    followed by records [kept] of the page.  The kept records sit at
    increasing positions [idx] of the page, so in the order of the page, and
    a position is among them exactly when its record is a first occurrence:
    its id is not in the dedup set and no earlier record of the page has it.
    So of two records of the page with one id, the later one is not kept. *)
Theorem C9_first_occurrence_order (offset : nat)
    (data : option (list (option Source))) (s : FeedState) :
  let page := incomingItems offset data in
  ∃ (kept : list ImageData) (idx : list nat),
    images (fetchPage_settle offset (Resolved data) s) =
      (if bool_decide (offset = 0) then [] else images s) ++ kept ∧
    StronglySorted lt idx ∧
    Forall2 (λ i x, page !! i = Some x) idx kept ∧
    sublist kept page ∧
    (∀ i, i ∈ idx ↔ first_occurrence (dedupBase offset s) page i) ∧
    (∀ i j x y, i < j → page !! i = Some x → page !! j = Some y →
                id x = id y → j ∉ idx).
Proof.
  intros page.
  destruct (uniqueItems_first_occurrences (dedupBase offset s) page)
    as (idx & Hsorted & Hat & Hfirst).
  exists (uniqueItems (dedupBase offset s) page).1, idx.
  split; [simpl; by rewrite resolved_images|].
  split; [done|]. split; [done|].
  split; [apply uniqueItems_sublist|]. split; [done|].
  intros i j x y Hlt Hi Hj Hid (z & Hz & _ & Hearlier)%Hfirst.
  assert (z = y) as -> by congruence.
  by apply (Hearlier i x).
Qed.

(** C9 on a page with twins, appended to a feed with one item: the first
    twin and the last record are kept, in this order, after that item. *)
Lemma C9_first_occurrence_order_witness :
  (∃ kept idx,
     images (fetchPage_settle 1 (Resolved (Some twinPage)) (feed oneLoaded)) =
       (if bool_decide (1 = 0) then [] else images (feed oneLoaded)) ++ kept ∧
     Forall2 (λ i x, incomingItems 1 (Some twinPage) !! i = Some x) idx kept ∧
     1 ∉ idx) ∧
  images (fetchPage_settle 1 (Resolved (Some twinPage)) (feed oneLoaded)) =
    images (feed oneLoaded) ++ [toImageData 1 0 (catalogEntry 7);
                                toImageData 1 2 (catalogEntry 8)].
Proof.
  split.
  - destruct (C9_first_occurrence_order 1 (Some twinPage) (feed oneLoaded))
      as (kept & idx & Himg & _ & Hat & _ & _ & Hlater).
    exists kept, idx. split; [exact Himg|]. split; [exact Hat|].
    apply (Hlater 0 1 (toImageData 1 0 (catalogEntry 7))
                  (toImageData 1 1 twin)).
    + lia.
    + vm_compute. reflexivity.
    + vm_compute. reflexivity.
    + vm_compute. reflexivity.
  - vm_compute. reflexivity.
Defined.

(** The records that [filterBoolean] keeps are the non-null entries, in
    order. *)
Lemma filterBoolean_filter (page : list (option Source)) :
  Some <$> filterBoolean page = filter is_Some page.
Proof.
  induction page as [|[x|] page IH]; [done|..].
  - rewrite filterBoolean_cons_record, filter_cons_True by done.
    rewrite fmap_cons. by f_equal.
  - rewrite filterBoolean_cons_null, filter_cons_False; [done|].
    by intros [? ?].
Qed.

(** C10. Null entries.  The null entries of a response are discarded first:
    the incoming items are made of the non-null entries, in order, and the
    index that enters a synthetic id is the position among these.  The
    discarded entries are not counted: [hasMore] is computed from the number
    of non-null entries, so a response of exactly [PAGE_SIZE] entries of
    which one is null clears [hasMore]. *)
Theorem C10_null_entries (offset : nat) (page : list (option Source))
    (s : FeedState) :
  let s' := fetchPage_settle offset (Resolved (Some page)) s in
  Some <$> filterBoolean page = filter is_Some page ∧
  (∀ i it, filterBoolean page !! i = Some it →
     incomingItems offset (Some page) !! i = Some (toImageData offset i it)) ∧
  length (incomingItems offset (Some page)) = length (filterBoolean page) ∧
  hasMore s' = bool_decide (length (filterBoolean page) = PAGE_SIZE) ∧
  (length page = PAGE_SIZE → None ∈ page → hasMore s' = false).
Proof.
  intros s'.
  assert (Hh : hasMore s' =
                 bool_decide (length (filterBoolean page) = PAGE_SIZE)).
  { unfold s'. simpl. rewrite resolved_hasMore.
    by rewrite length_incomingItems. }
  split; [apply filterBoolean_filter|]. split; [|split; [|split]].
  - intros i it Hi. unfold incomingItems. simpl.
    by rewrite list_lookup_imap, Hi.
  - apply (length_incomingItems offset (Some page)).
  - done.
  - intros Hlen Hnull%filterBoolean_null. rewrite Hh.
    apply bool_decide_eq_false_2. lia.
Qed.

(** C10 on a response of sixty entries with one null. *)
Lemma C10_null_entries_witness :
  length holedPage = PAGE_SIZE ∧
  hasMore (fetchPage_settle 0 (Resolved (Some holedPage)) initialFeed) = false.
Proof.
  split; [reflexivity|].
  apply (C10_null_entries 0 holedPage initialFeed).
  - reflexivity.
  - left.
Defined.

(** The synthetic id of a record that follows a null entry counts from the
    first non-null entry. *)
Example tmpId_after_discard :
  ids (incomingItems 60 (Some [None; Some anonymous; None; Some anonymous])) =
    ["tmp-60-0"; "tmp-60-1"].
Proof. vm_compute. reflexivity. Qed.

(** ** Further properties of the feed store *)

Section FeedExact.
Implicit Types (s : FeedState) (w : World).

Lemma feed_exact_resolved offset data s :
  feed_exact s → feed_exact (fetchPage_resolved offset data s).
Proof.
  unfold feed_exact. intros H.
  rewrite resolved_images, resolved_loadedIds, uniqueItems_loaded.
  unfold dedupBase, ids in *. rewrite fmap_app, list_to_set_app_L.
  destruct (bool_decide (offset = 0)); simpl; [done|]. by rewrite H.
Qed.

Lemma feed_exact_settle offset r s :
  feed_exact s → feed_exact (fetchPage_settle offset r s).
Proof.
  intros H. destruct r as [data|]; simpl; [|done].
  by apply (feed_exact_resolved offset data) in H.
Qed.

Lemma feed_exact_step w e : feed_exact (feed w) → feed_exact (feed (step w e)).
Proof.
  intros H. destruct e as [offset q|a b items q|q|k r]; simpl.
  - unfold feed_exact in *.
    by destruct (enter_fields offset (feed w)) as (-> & -> & _).
  - unfold loadMore.
    destruct (negb _ || _); [done|]. destruct (bool_decide _); [done|].
    simpl. unfold feed_exact in *.
    by destruct (enter_fields (length items) (feed w)) as (-> & -> & _).
  - done.
  - unfold settle. destruct (inflight w !! k); [|done].
    by apply feed_exact_settle.
Qed.

Lemma feed_exact_run es w : feed_exact (feed w) → feed_exact (feed (run w es)).
Proof.
  revert w. induction es as [|e es IH]; intros w H; [done|].
  simpl. by apply IH, feed_exact_step.
Qed.

End FeedExact.

(** X1. In a session, whatever the calls and the answers, the dedup set is
    exactly the set of the ids of the items: it is reset when and only when
    the items are, and it holds no id of a record that is not shown. *)
Theorem loadedIds_are_item_ids (es : list Event) :
  loadedIdsRef (feed (run initialWorld es)) =
    list_to_set (ids (images (feed (run initialWorld es)))).
Proof. by apply (feed_exact_run es initialWorld). Qed.

(** X2. No record is lost: when a page resolves in a session, every id of
    the page is the id of an item afterwards (of the record itself, or of the
    one that was there first). *)
Theorem resolved_page_ids_are_shown (es : list Event) (k offset : nat)
    (data : option (list (option Source))) (x : ImageData) :
  inflight (run initialWorld es) !! k = Some offset →
  x ∈ incomingItems offset data →
  id x ∈ ids (images (feed (settle k (Resolved data) (run initialWorld es)))).
Proof.
  intros Hk Hx.
  pose proof (feed_exact_run (es ++ [Settle k (Resolved data)]) initialWorld
                eq_refl) as Hex.
  unfold run in Hex. rewrite foldl_app in Hex. simpl in Hex.
  fold (run initialWorld es) in Hex.
  apply (elem_of_list_to_set (C := gset string)). rewrite <- Hex.
  rewrite (settle_lookup k _ _ offset Hk). simpl.
  rewrite resolved_loadedIds, uniqueItems_loaded_page.
  apply elem_of_union_r, elem_of_list_to_set. by apply list_elem_of_fmap_2.
Qed.

(** X2 on a twin page that follows one loaded item: the id of the second
    twin is shown (by the first twin). *)
Lemma resolved_page_ids_are_shown_witness :
  id (toImageData 1 1 twin) ∈
    ids (images (feed (settle 0 (Resolved (Some twinPage))
      (run initialWorld [CallFetchPage 0 None; Settle 0 (catalogPage 6 1);
                         CallFetchPage 1 None])))).
Proof.
  apply (resolved_page_ids_are_shown
    [CallFetchPage 0 None; Settle 0 (catalogPage 6 1); CallFetchPage 1 None]
    0 1 (Some twinPage) (toImageData 1 1 twin)).
  - vm_compute. reflexivity.
  - vm_compute. right. left.
Defined.

Lemma uniqueItems_length_le (loaded : gset string) (l : list ImageData) :
  length (uniqueItems loaded l).1 ≤ length l.
Proof. apply sublist_length, uniqueItems_sublist. Qed.

(** X3. A page that resolves at an offset above 0 never removes or reorders
    a loaded item: the old items are a prefix of the new ones; and at any
    offset it adds at most as many items as the response has entries. *)
Theorem resolved_page_only_appends (offset : nat)
    (data : option (list (option Source))) (s : FeedState) :
  0 < offset →
  images s `prefix_of` images (fetchPage_settle offset (Resolved data) s) ∧
  length (images (fetchPage_settle offset (Resolved data) s)) ≤
    length (images s) + length (default [] data).
Proof.
  intros Hoff. simpl. rewrite resolved_images.
  rewrite bool_decide_eq_false_2 by lia. split.
  - by eexists.
  - rewrite length_app.
    pose proof (uniqueItems_length_le (dedupBase offset s)
                  (incomingItems offset data)).
    pose proof (filterBoolean_length_le (default [] data)).
    rewrite length_incomingItems in *. lia.
Qed.

Lemma resolved_page_only_appends_witness :
  images (feed oneLoaded) `prefix_of`
    images (fetchPage_settle 1 (Resolved (Some twinPage)) (feed oneLoaded)).
Proof.
  apply (resolved_page_only_appends 1 (Some twinPage) (feed oneLoaded)). lia.
Defined.

(** The fields of the state after a page has resolved. *)
Lemma settle_resolved_fields (offset : nat)
    (data : option (list (option Source))) (s : FeedState) :
  images (fetchPage_settle offset (Resolved data) s) =
    (if bool_decide (offset = 0) then [] else images s) ++
    (uniqueItems (dedupBase offset s) (incomingItems offset data)).1 ∧
  loadedIdsRef (fetchPage_settle offset (Resolved data) s) =
    (uniqueItems (dedupBase offset s) (incomingItems offset data)).2 ∧
  hasMore (fetchPage_settle offset (Resolved data) s) =
    bool_decide (length (incomingItems offset data) = PAGE_SIZE).
Proof.
  simpl. by rewrite resolved_images, resolved_loadedIds, resolved_hasMore.
Qed.

(** X4. An answer that is delivered twice is harmless: when the same page
    resolves a second time at the same offset, the items, the dedup set and
    [hasMore] are what they were after the first time. *)
Theorem duplicate_answer_changes_nothing (offset : nat)
    (data : option (list (option Source))) (s : FeedState) :
  let once := fetchPage_settle offset (Resolved data) s in
  let twice := fetchPage_settle offset (Resolved data) once in
  images twice = images once ∧
  loadedIdsRef twice = loadedIdsRef once ∧
  hasMore twice = hasMore once.
Proof.
  intros once twice.
  destruct (settle_resolved_fields offset data once) as (Hi2 & Hl2 & Hh2).
  destruct (settle_resolved_fields offset data s) as (Hi1 & Hl1 & Hh1).
  fold once in Hi1, Hl1, Hh1. fold twice in Hi2, Hl2, Hh2.
  rewrite Hi2, Hl2, Hh2, Hh1. split; [|split; [|done]].
  - unfold dedupBase in *. destruct (bool_decide (offset = 0)); [done|].
    rewrite uniqueItems_all_loaded; [simpl; by rewrite app_nil_r|].
    intros x Hx. rewrite Hl1, uniqueItems_loaded_page.
    apply elem_of_union_r, elem_of_list_to_set. by apply list_elem_of_fmap_2.
  - unfold dedupBase in *. destruct (bool_decide (offset = 0)); [done|].
    rewrite uniqueItems_all_loaded; [done|].
    intros x Hx. rewrite Hl1, uniqueItems_loaded_page.
    apply elem_of_union_r, elem_of_list_to_set. by apply list_elem_of_fmap_2.
Qed.

(** X5. A response without records (no [data], an empty array, or nulls
    only) clears [hasMore]; above offset 0 it leaves the items and the dedup
    set as they are, at offset 0 it leaves both empty. *)
Theorem empty_page_ends_the_feed (offset : nat)
    (data : option (list (option Source))) (s : FeedState) :
  filterBoolean (default [] data) = [] →
  hasMore (fetchPage_settle offset (Resolved data) s) = false ∧
  images (fetchPage_settle offset (Resolved data) s) =
    (if bool_decide (offset = 0) then [] else images s) ∧
  loadedIdsRef (fetchPage_settle offset (Resolved data) s) =
    (if bool_decide (offset = 0) then ∅ else loadedIdsRef s).
Proof.
  intros Hnone. simpl.
  rewrite resolved_hasMore, resolved_images, resolved_loadedIds.
  unfold incomingItems. rewrite Hnone. simpl.
  split; [done|]. split; [by rewrite app_nil_r|done].
Qed.

Lemma empty_page_ends_the_feed_witness :
  hasMore (fetchPage_settle 60 (Resolved (Some [None; None]))
             (feed scenarioA_first)) = false ∧
  images (fetchPage_settle 60 (Resolved (Some [None; None]))
            (feed scenarioA_first)) =
    (if bool_decide (60 = 0) then [] else images (feed scenarioA_first)) ∧
  loadedIdsRef (fetchPage_settle 60 (Resolved (Some [None; None]))
                  (feed scenarioA_first)) =
    (if bool_decide (60 = 0) then ∅ else loadedIdsRef (feed scenarioA_first)).
Proof.
  apply (empty_page_ends_the_feed 60 (Some [None; None])
           (feed scenarioA_first)).
  reflexivity.
Defined.

(** While [hasMore] is false, a burst of triggers does nothing. *)
Lemma loadMore_burst_no_more (es : list Event) (w : World) :
  hasMore (feed w) = false → forallb isLoadMore es = true → run w es = w.
Proof.
  intros Hw. induction es as [|e es IH]; [done|]. simpl.
  intros [He Hes]%andb_true_iff.
  destruct e as [|a b items q| |]; try discriminate. simpl.
  unfold loadMore. rewrite Hw. simpl. by apply IH.
Qed.

(** X6. Once a page of fewer than [PAGE_SIZE] records has resolved, no
    trigger of [loadMore], with whatever arguments, sends a request or
    changes anything. *)
Theorem short_page_stops_loadMore (w : World) (k offset : nat)
    (data : option (list (option Source))) (es : list Event) :
  inflight w !! k = Some offset →
  length (filterBoolean (default [] data)) < PAGE_SIZE →
  forallb isLoadMore es = true →
  run (settle k (Resolved data) w) es = settle k (Resolved data) w.
Proof.
  intros Hk Hshort Hes. apply loadMore_burst_no_more; [|done].
  rewrite (settle_lookup k _ w offset Hk). simpl.
  rewrite resolved_hasMore, length_incomingItems.
  apply bool_decide_eq_false_2. lia.
Qed.

Lemma short_page_stops_loadMore_witness :
  let w := fetchPage_start 0 None initialWorld in
  run (settle 0 (catalogPage 0 3) w)
      [CallLoadMore 0 2 [] None; CallLoadMore 0 100 [] (Some "moon")] =
    settle 0 (catalogPage 0 3) w.
Proof.
  intros w.
  apply (short_page_stops_loadMore w 0 0
           (Some ((λ n, Some (catalogEntry n)) <$> seq 0 3))).
  - reflexivity.
  - vm_compute. lia.
  - reflexivity.
Defined.

(** ** Strings: append, reverse, trim *)

Section Strings.
Implicit Types (s r x y : string) (c : ascii).

Lemma append_cons c x y : String c x +:+ y = String c (x +:+ y).
Proof. reflexivity. Qed.

Lemma append_nil_r s : s +:+ "" = s.
Proof. induction s as [|c s IH]; [done|]. by rewrite append_cons, IH. Qed.

Lemma append_assoc x y s : (x +:+ y) +:+ s = x +:+ (y +:+ s).
Proof.
  induction x as [|c x IH]; [done|]. by rewrite !append_cons, IH.
Qed.

Lemma rev_app_append x y : String.rev_app x y = String.rev x +:+ y.
Proof.
  unfold String.rev. revert y. induction x as [|c x IH]; intros y; [done|].
  simpl. rewrite (IH (String c y)), (IH (String c "")).
  by rewrite append_assoc.
Qed.

Lemma rev_cons c s : String.rev (String c s) = String.rev s +:+ String c "".
Proof. unfold String.rev at 1. simpl. apply rev_app_append. Qed.

Lemma rev_append x y : String.rev (x +:+ y) = String.rev y +:+ String.rev x.
Proof.
  induction x as [|c x IH].
  - by rewrite append_nil_r.
  - by rewrite append_cons, !rev_cons, IH, append_assoc.
Qed.

Lemma rev_involutive s : String.rev (String.rev s) = s.
Proof.
  induction s as [|c s IH]; [done|]. by rewrite rev_cons, rev_append, IH.
Qed.

Lemma all_white_append x y : all_white (x +:+ y) = all_white x && all_white y.
Proof.
  induction x as [|c x IH]; [done|]. rewrite append_cons. simpl. rewrite IH.
  by rewrite andb_assoc.
Qed.

Lemma all_white_rev s : all_white (String.rev s) = all_white s.
Proof.
  induction s as [|c s IH]; [done|].
  rewrite rev_cons, all_white_append, IH. simpl.
  rewrite andb_true_r. apply andb_comm.
Qed.

Lemma trimStart_all_white s : all_white s = true → JsString.trimStart s = "".
Proof.
  induction s as [|c s IH]; [done|]. simpl.
  intros [-> Hs]%andb_true_iff. auto.
Qed.

Lemma trimStart_not_all_white s :
  all_white s = false → JsString.trimStart s ≠ "".
Proof.
  induction s as [|c s IH]; [done|]. simpl.
  destruct (JsString.is_white c); simpl; [auto|done].
Qed.

Lemma trimStart_append x y :
  JsString.trimStart (x +:+ y) =
    if all_white x then JsString.trimStart y else JsString.trimStart x +:+ y.
Proof.
  induction x as [|c x IH]; [done|]. rewrite append_cons. simpl.
  destruct (JsString.is_white c); [done|done].
Qed.

(** [trimEnd] by recursion from the left. *)
Lemma trimEnd_cons c s :
  JsString.trimEnd (String c s) =
    if all_white (String c s) then "" else String c (JsString.trimEnd s).
Proof.
  unfold JsString.trimEnd. rewrite rev_cons, trimStart_append, all_white_rev.
  simpl. destruct (all_white s) eqn:Hs.
  - rewrite andb_true_r.
    rewrite (trimStart_all_white (String.rev s)) by by rewrite all_white_rev.
    by destruct (JsString.is_white c).
  - rewrite andb_false_r. by rewrite rev_append.
Qed.

Lemma trimEnd_all_white s : all_white s = true → JsString.trimEnd s = "".
Proof. destruct s as [|c s]; [done|]. rewrite trimEnd_cons. by intros ->. Qed.

Lemma all_white_trimStart s :
  all_white (JsString.trimStart s) = all_white s.
Proof.
  induction s as [|c s IH]; [done|]. simpl.
  destruct (JsString.is_white c) eqn:Hc; [done|]. simpl. by rewrite Hc.
Qed.

Lemma all_white_trimEnd s : all_white (JsString.trimEnd s) = all_white s.
Proof.
  unfold JsString.trimEnd. by rewrite all_white_rev, all_white_trimStart, all_white_rev.
Qed.

(** A string that does not start with white space is left by [trimStart]. *)
Lemma trimStart_id c s :
  JsString.is_white c = false → JsString.trimStart (String c s) = String c s.
Proof. intros H. simpl. by rewrite H. Qed.

(** [trimEnd] keeps the first character of what it keeps. *)
Lemma trimEnd_head c s :
  JsString.is_white c = false →
  JsString.trimEnd (String c s) = String c (JsString.trimEnd s).
Proof. intros H. rewrite trimEnd_cons. simpl. by rewrite H. Qed.

Lemma trimEnd_idem s : JsString.trimEnd (JsString.trimEnd s) = JsString.trimEnd s.
Proof.
  induction s as [|c s IH]; [done|]. rewrite trimEnd_cons.
  destruct (all_white (String c s)) eqn:Hw; [done|].
  rewrite trimEnd_cons. simpl in *. rewrite all_white_trimEnd, Hw.
  by rewrite IH.
Qed.

(** No character that [trimEnd] leaves at the end is white space. *)
Lemma trimEnd_last s r c :
  JsString.trimEnd s = r +:+ String c "" → JsString.is_white c = false.
Proof.
  revert r. induction s as [|a s IH]; intros r.
  - by destruct r.
  - rewrite trimEnd_cons. destruct (all_white (String a s)) eqn:Hw.
    { by destruct r. }
    destruct r as [|b r]; simpl.
    + intros [= -> Hs]. simpl in Hw.
      destruct (JsString.is_white c); [|done]. simpl in Hw.
      destruct s as [|a' s]; [done|]. rewrite trimEnd_cons in Hs.
      by rewrite Hw in Hs.
    + intros [= -> Hs]. by apply (IH r).
Qed.

End Strings.

(** [trim]: the result neither starts nor ends with white space, trimming it
    again changes nothing, and it is empty exactly when the string holds
    nothing but white space. *)
Theorem trim_spec (s : string) :
  (∀ c r, JsString.trim s = String c r → JsString.is_white c = false) ∧
  (∀ r c, JsString.trim s = r +:+ String c "" → JsString.is_white c = false) ∧
  JsString.trim (JsString.trim s) = JsString.trim s ∧
  (JsString.trim s = "" ↔ all_white s = true).
Proof.
  unfold JsString.trim. split; [|split; [|split]].
  - intros c r H.
    destruct (JsString.trimStart s) as [|a t] eqn:Hs; [done|].
    assert (Ha : JsString.is_white a = false).
    { clear H. induction s as [|b s IH]; [done|]. simpl in Hs.
      destruct (JsString.is_white b) eqn:Hb; [auto|]. by simplify_eq. }
    rewrite trimEnd_head in H by done. by simplify_eq.
  - intros r c. apply trimEnd_last.
  - destruct (JsString.trimStart s) as [|a t] eqn:Hs; [done|].
    assert (Ha : JsString.is_white a = false).
    { clear -Hs. induction s as [|b s IH]; [done|]. simpl in Hs.
      destruct (JsString.is_white b) eqn:Hb; [auto|]. by simplify_eq. }
    rewrite trimEnd_head by done. rewrite trimStart_id by done.
    by rewrite <- (trimEnd_head a t), trimEnd_idem by done.
  - split.
    + intros H. rewrite <- all_white_trimStart, <- all_white_trimEnd.
      by rewrite H.
    + intros H. apply trimEnd_all_white. by rewrite all_white_trimStart.
Qed.

Lemma trim_spec_witness :
  JsString.is_white "n" = false ∧ JsString.is_white "a" = false.
Proof.
  destruct (trim_spec "  nebula ") as (Hfirst & Hlast & _).
  split.
  - apply (Hfirst "n"%char "ebula"). vm_compute. reflexivity.
  - apply (Hlast "nebul" "a"%char). vm_compute. reflexivity.
Defined.

(** X7. The request of [fetchPage] carries the given offset and the page
    size as limit.  It carries no [q] when there is no query or the query
    holds nothing but white space; otherwise [q] is the trimmed query, which
    is not empty and neither starts nor ends with white space. *)
Theorem fetchParams_query (offset : nat) (searchQuery : option string) :
  p_offset (fetchParams offset searchQuery) = offset ∧
  p_limit (fetchParams offset searchQuery) = PAGE_SIZE ∧
  (from_option all_white true searchQuery = true →
     p_q (fetchParams offset searchQuery) = None) ∧
  (∀ s, searchQuery = Some s → all_white s = false →
     p_q (fetchParams offset searchQuery) = Some (JsString.trim s) ∧
     JsString.trim s ≠ "" ∧
     (∀ c r, JsString.trim s = String c r → JsString.is_white c = false) ∧
     (∀ r c, JsString.trim s = r +:+ String c "" →
             JsString.is_white c = false)).
Proof.
  split; [done|]. split; [done|]. split.
  - destruct searchQuery as [s|]; [|done]. simpl. intros Hw.
    destruct (trim_spec s) as (_ & _ & _ & Hempty).
    rewrite (proj2 Hempty Hw). by rewrite andb_false_r.
  - intros s -> Hw. destruct (trim_spec s) as (Hfirst & Hlast & _ & Hempty).
    assert (Hne : JsString.trim s ≠ "").
    { intros H%Hempty. congruence. }
    split; [|done]. simpl.
    destruct s as [|c s]; [done|].
    destruct (JsString.trim (String c s)); [done|done].
Qed.

Lemma fetchParams_query_witness :
  p_q (fetchParams 0 (Some "   ")) = None ∧
  p_q (fetchParams 60 (Some " nebula  ")) = Some "nebula".
Proof.
  split.
  - apply (fetchParams_query 0 (Some "   ")). reflexivity.
  - destruct (fetchParams_query 60 (Some " nebula  ")) as (_ & _ & _ & H).
    destruct (H " nebula  ") as [Hq _]; [reflexivity..|]. exact Hq.
Defined.

(** Every request of a world has the page size as limit and a [q] that, if
    present, is not empty and is already trimmed. *)
Lemma fetchParams_wellformed (offset : nat) (searchQuery : option string) :
  p_limit (fetchParams offset searchQuery) = PAGE_SIZE ∧
  ∀ t, p_q (fetchParams offset searchQuery) = Some t →
       t ≠ "" ∧ JsString.trim t = t.
Proof.
  split; [done|]. intros t. simpl.
  destruct searchQuery as [s|]; [|done].
  destruct (JsString.truthy s && JsString.truthy (JsString.trim s)) eqn:Hs;
    [|done].
  intros [= <-]. apply andb_true_iff in Hs as [_ Hs].
  split; [by destruct (JsString.trim s)|].
  by destruct (trim_spec s) as (_ & _ & -> & _).
Qed.

Lemma requests_wellformed_step (w : World) (e : Event) :
  Forall (λ p, p_limit p = PAGE_SIZE ∧
               ∀ t, p_q p = Some t → t ≠ "" ∧ JsString.trim t = t)
         (requests w) →
  Forall (λ p, p_limit p = PAGE_SIZE ∧
               ∀ t, p_q p = Some t → t ≠ "" ∧ JsString.trim t = t)
         (requests (step w e)).
Proof.
  intros H. destruct e as [offset q|a b items q|q|k r]; simpl.
  - apply Forall_app. split; [done|].
    constructor; [apply fetchParams_wellformed|constructor].
  - unfold loadMore. destruct (negb _ || _); [done|].
    destruct (bool_decide _); [done|]. simpl.
    apply Forall_app. split; [done|].
    constructor; [apply fetchParams_wellformed|constructor].
  - unfold refresh. simpl. apply Forall_app. split; [done|].
    constructor; [apply fetchParams_wellformed|constructor].
  - unfold settle. by destruct (inflight w !! k).
Qed.

(** X8. In a session every request that the remote source receives asks for
    [PAGE_SIZE] records, and its [q], if it has one, is not empty and has no
    white space around it. *)
Theorem session_requests_wellformed (es : list Event) :
  Forall (λ p, p_limit p = PAGE_SIZE ∧
               ∀ t, p_q p = Some t → t ≠ "" ∧ JsString.trim t = t)
         (requests (run initialWorld es)).
Proof.
  assert (H : ∀ w,
    Forall (λ p, p_limit p = PAGE_SIZE ∧
                 ∀ t, p_q p = Some t → t ≠ "" ∧ JsString.trim t = t)
           (requests w) →
    Forall (λ p, p_limit p = PAGE_SIZE ∧
                 ∀ t, p_q p = Some t → t ≠ "" ∧ JsString.trim t = t)
           (requests (run w es))).
  { induction es as [|e es IH]; intros w Hw; [done|].
    simpl. by apply IH, requests_wellformed_step. }
  apply H. constructor.
Qed.

(** ** Synthetic ids *)

Section SyntheticIds.

Lemma no_dash_cons (c : ascii) (s : string) :
  c ≠ "-"%char → no_dash s → no_dash (String c s).
Proof.
  intros Hc Hs [|a' a] b; rewrite ?append_cons; intros [= ? ?]; [done|].
  by apply (Hs a b).
Qed.

Lemma no_dash_tail (c : ascii) (s : string) : no_dash (String c s) → no_dash s.
Proof. intros H a b ->. by apply (H (String c a) b). Qed.

Lemma no_dash_pretty_N_go (x : N) (s : string) :
  no_dash s → no_dash (pretty_N_go x s).
Proof.
  revert s. induction (N.lt_wf_0 x) as [x _ IH]; intros s Hs.
  destruct (decide (x = 0)%N) as [->|Hx].
  - by rewrite pretty_N_go_0.
  - rewrite pretty_N_go_step by lia. apply IH.
    + apply N.div_lt; lia.
    + apply no_dash_cons; [|done]. unfold pretty_N_char.
      by repeat case_match.
Qed.

Lemma no_dash_pretty_nat (n : nat) : no_dash (pretty n).
Proof.
  unfold pretty, pretty_nat, pretty, pretty_N.
  destruct (decide (N.of_nat n = 0)%N).
  - intros [|a' [|a'' a]] b; by rewrite ?append_cons.
  - apply no_dash_pretty_N_go. by intros [|a' a] b.
Qed.

(** Two strings without hyphen, each followed by a hyphen and a rest, are
    equal only if they and the rests are. *)
Lemma split_at_dash (a a' r r' : string) :
  no_dash a → no_dash a' →
  a +:+ String "-" r = a' +:+ String "-" r' → a = a' ∧ r = r'.
Proof.
  revert a'. induction a as [|c a IH]; intros [|c' a'] Ha Ha'.
  - by intros [= ->].
  - rewrite append_cons. intros [= <- ?]. by destruct (Ha' "" a').
  - rewrite append_cons. intros [= -> ?]. by destruct (Ha "" a).
  - rewrite !append_cons. intros [= -> H].
    apply IH in H as [-> ->]; [done|by eapply no_dash_tail..].
Qed.

Lemma tmpId_inj_aux (offset offset' i i' : nat) :
  tmpId offset i = tmpId offset' i' → offset = offset' ∧ i = i'.
Proof.
  unfold tmpId. intros H. apply (inj (String.app "tmp-")) in H.
  apply split_at_dash in H as [Ho Hi]; [|apply no_dash_pretty_nat..].
  split; by apply (inj pretty).
Qed.

End SyntheticIds.

(** X9. The synthetic ids of two records coincide only if the records were
    fetched at the same offset and stand at the same position of their
    pages. *)
Theorem tmpId_inj (offset offset' i i' : nat) :
  tmpId offset i = tmpId offset' i' → offset = offset' ∧ i = i'.
Proof. apply tmpId_inj_aux. Qed.

Lemma tmpId_inj_witness : 60 = 60 ∧ 3 = 3.
Proof. apply (tmpId_inj 60 60 3 3). reflexivity. Defined.

(** The ids of the records of a page without ids. *)
Lemma incoming_ids_lacking (offset : nat) (page : list (option Source)) :
  forallb lacksId page = true →
  ids (incomingItems offset (Some page)) =
    tmpId offset <$> seq 0 (length (filterBoolean page)).
Proof.
  intros Hl. unfold ids, incomingItems. simpl.
  rewrite fmap_imap, <- imap_seq_0. apply imap_ext.
  intros i it Hit. simpl.
  assert (Hin : Some it ∈ page).
  { apply list_elem_of_lookup_2 in Hit.
    apply list_elem_of_omap in Hit as (o & Ho & ->). done. }
  rewrite forallb_forall in Hl. apply list_elem_of_In, Hl in Hin.
  simpl in Hin. by destruct (src_id it).
Qed.

(** Records with pairwise different ids, none of which is loaded, are all
    kept. *)
Lemma uniqueItems_all_new (loaded : gset string) (l : list ImageData) :
  NoDup (ids l) → (∀ x, x ∈ ids l → x ∉ loaded) →
  (uniqueItems loaded l).1 = l.
Proof.
  revert loaded. induction l as [|y l IH]; intros loaded Hnd Hnew; [done|].
  apply list.NoDup_cons in Hnd as [Hy Hnd].
  rewrite uniqueItems_cons_new by (apply Hnew; left). simpl. f_equal.
  apply IH; [done|]. intros x Hx.
  assert (x ≠ id y) by (intros ->; done).
  assert (x ∉ loaded) by (apply Hnew; by right). set_solver.
Qed.

(** X10. Records without id never hide each other within a page: the
    synthetic ids of a page are pairwise different, and a first page none of
    whose records has an id is kept whole. *)
Theorem page_without_ids_is_kept (offset : nat) (page : list (option Source))
    (s : FeedState) :
  forallb lacksId page = true →
  NoDup (ids (incomingItems offset (Some page))) ∧
  images (fetchPage_settle 0 (Resolved (Some page)) s) =
    incomingItems 0 (Some page).
Proof.
  intros Hl.
  assert (Hnd : ∀ o, NoDup (ids (incomingItems o (Some page)))).
  { intros o. rewrite incoming_ids_lacking by done.
    apply NoDup_fmap_2_strong; [|apply NoDup_seq].
    intros i j _ _ H. by destruct (tmpId_inj_aux o o i j H). }
  split; [apply Hnd|].
  destruct (settle_resolved_fields 0 (Some page) s) as (-> & _).
  simpl. apply uniqueItems_all_new; [apply Hnd|]. set_solver.
Qed.

Lemma page_without_ids_is_kept_witness :
  images (fetchPage_settle 0 (Resolved (Some [Some anonymous; None;
                                               Some anonymous]))
            initialFeed) =
    incomingItems 0 (Some [Some anonymous; None; Some anonymous]).
Proof.
  apply (page_without_ids_is_kept 0 [Some anonymous; None; Some anonymous]
           initialFeed).
  reflexivity.
Defined.

(** X11. Records without id that arrive at an offset above 0 at which such
    records have arrived before are dropped, whatever they hold: their
    synthetic ids are taken.  (At most as many records as the earlier page
    had.) *)
Theorem page_without_ids_at_used_offset_is_dropped (offset : nat)
    (page1 page2 : list (option Source)) (s : FeedState) :
  0 < offset →
  forallb lacksId page1 = true →
  forallb lacksId page2 = true →
  length (filterBoolean page2) ≤ length (filterBoolean page1) →
  images (fetchPage_settle offset (Resolved (Some page2))
            (fetchPage_settle offset (Resolved (Some page1)) s)) =
    images (fetchPage_settle offset (Resolved (Some page1)) s).
Proof.
  intros Hoff H1 H2 Hlen.
  destruct (settle_resolved_fields offset (Some page2)
              (fetchPage_settle offset (Resolved (Some page1)) s))
    as (-> & _).
  destruct (settle_resolved_fields offset (Some page1) s) as (_ & Hl & _).
  unfold dedupBase at 1. rewrite !bool_decide_eq_false_2 by lia.
  rewrite uniqueItems_all_loaded; [simpl; by rewrite app_nil_r|].
  intros x Hx. rewrite Hl, uniqueItems_loaded_page.
  apply elem_of_union_r, elem_of_list_to_set.
  rewrite incoming_ids_lacking by done.
  apply (list_elem_of_fmap_2 id) in Hx. fold (ids (incomingItems offset (Some page2))) in Hx.
  rewrite incoming_ids_lacking in Hx by done.
  apply list_elem_of_fmap in Hx as (i & -> & Hi).
  apply list_elem_of_fmap_2. apply elem_of_seq in Hi. apply elem_of_seq. lia.
Qed.

Lemma page_without_ids_at_used_offset_is_dropped_witness :
  images (fetchPage_settle 60 (Resolved (Some [None; Some anonymous]))
            (fetchPage_settle 60
               (Resolved (Some [Some anonymous; Some anonymous]))
               initialFeed)) =
    images (fetchPage_settle 60
              (Resolved (Some [Some anonymous; Some anonymous]))
              initialFeed).
Proof.
  apply (page_without_ids_at_used_offset_is_dropped 60
           [Some anonymous; Some anonymous] [None; Some anonymous]
           initialFeed).
  - lia.
  - reflexivity.
  - reflexivity.
  - vm_compute. lia.
Defined.

(** ** The grid and the search context *)

(** The state in which the grid shows the message of a failed fetch. *)
Lemma failed_state_step (w : World) (e : Event) :
  isRefresh e = false →
  loading (feed w) = false ∧
    error (feed w) = Some "Failed to fetch space images" →
  loading (feed (step w e)) = false ∧
    error (feed (step w e)) = Some "Failed to fetch space images".
Proof.
  intros He [Hl Herr]. destruct e as [offset q|a b items q|q|k r]; simpl.
  - by destruct (enter_fields offset (feed w)) as (_&_&_& -> & -> &_).
  - unfold loadMore. destruct (negb _ || _); [done|].
    destruct (bool_decide _); [done|]. simpl.
    by destruct (enter_fields (length items) (feed w)) as (_&_&_& -> & -> &_).
  - done.
  - unfold settle. destruct (inflight w !! k) as [offset|]; [|done]. simpl.
    destruct r as [data|]; [|done].
    by destruct (resolved_others offset data (feed w)) as (-> & _).
Qed.

Lemma failed_state_run (es : list Event) (w : World) :
  forallb (λ e, negb (isRefresh e)) es = true →
  loading (feed w) = false ∧
    error (feed w) = Some "Failed to fetch space images" →
  loading (feed (run w es)) = false ∧
    error (feed (run w es)) = Some "Failed to fetch space images".
Proof.
  revert w. induction es as [|e es IH]; intros w Hes Hw; [done|].
  simpl in *. apply andb_true_iff in Hes as [He Hes].
  apply IH; [done|]. apply failed_state_step; [|done].
  by destruct (isRefresh e).
Qed.

(** X12. After a fetch has failed, the grid shows the error message instead
    of the items, and goes on showing it, whatever is called and whatever
    arrives, until [refresh] is called: no later fetch, not even one that
    resolves, brings the items back. *)
Theorem error_is_shown_until_refresh (w : World) (k offset : nat)
    (es : list Event) :
  inflight w !! k = Some offset →
  forallb (λ e, negb (isRefresh e)) es = true →
  Grid.render (feed (run (settle k Rejected w) es)) =
    Grid.ErrorText "Failed to fetch space images".
Proof.
  intros Hk Hes.
  destruct (failed_state_run es (settle k Rejected w) Hes) as [Hl Herr].
  { rewrite (settle_lookup k _ w offset Hk). split; reflexivity. }
  unfold Grid.render. by rewrite Hl, Herr.
Qed.

(** X12 on Scenario A: the second fetch fails, a third one is started and
    resolves; the sixty items are loaded and the message is shown. *)
Lemma error_is_shown_until_refresh_witness :
  Grid.render (feed (run
    (settle 0 Rejected (fetchPage_start 60 None scenarioA_first))
    [CallFetchPage 60 None; Settle 0 (catalogPage 60 60)])) =
  Grid.ErrorText "Failed to fetch space images".
Proof.
  apply (error_is_shown_until_refresh
           (fetchPage_start 60 None scenarioA_first) 0 60).
  - vm_compute. reflexivity.
  - reflexivity.
Defined.

(** On mount two requests for the first page are in flight. *)
Lemma mount_inflight (k : nat) : k ≤ 1 → inflight Grid.mount !! k = Some 0.
Proof. intros H. destruct k as [|[|k]]; [reflexivity|reflexivity|lia]. Qed.

(** X13. On mount two requests for the first page are sent, both without
    [q]: the one of [useImageData] and the one of the grid.  When both
    resolve, in whichever order, the items are the unique records of the
    answer that arrives last. *)
Theorem mount_sends_two_requests (k : nat)
    (first last : option (list (option Source))) :
  k ≤ 1 →
  requests Grid.mount = [mkParams 0 PAGE_SIZE None; mkParams 0 PAGE_SIZE None] ∧
  inflight Grid.mount = [0; 0] ∧
  images (feed (run Grid.mount [Settle k (Resolved first);
                                Settle 0 (Resolved last)])) =
    (uniqueItems ∅ (incomingItems 0 last)).1.
Proof.
  intros Hk. split; [reflexivity|]. split; [reflexivity|].
  cbn [run foldl step]. apply first_page_replaces_items.
  rewrite (settle_lookup k _ _ 0 (mount_inflight k Hk)). cbn [inflight].
  destruct k as [|[|k]]; [reflexivity|reflexivity|lia].
Qed.

Lemma mount_sends_two_requests_witness :
  length (requests Grid.mount) = 2.
Proof.
  destruct (mount_sends_two_requests 1 None None) as [-> _]; [lia|].
  reflexivity.
Defined.

(** X14. If one of the two requests on mount fails, the grid shows the error
    message even though the other one resolves, before or after, and its
    records are loaded. *)
Theorem mount_failure_hides_loaded_items (k : nat)
    (data : option (list (option Source))) :
  k ≤ 1 →
  Grid.render (feed (run Grid.mount [Settle k Rejected;
                                     Settle 0 (Resolved data)])) =
    Grid.ErrorText "Failed to fetch space images" ∧
  Grid.render (feed (run Grid.mount [Settle k (Resolved data);
                                     Settle 0 Rejected])) =
    Grid.ErrorText "Failed to fetch space images" ∧
  images (feed (run Grid.mount [Settle k Rejected;
                                Settle 0 (Resolved data)])) =
    (uniqueItems ∅ (incomingItems 0 data)).1.
Proof.
  intros Hk. split; [|split].
  - pose proof (failed_state_run [Settle 0 (Resolved data)]
                  (settle k Rejected Grid.mount) eq_refl) as [Hl Herr].
    { rewrite (settle_lookup k _ _ 0 (mount_inflight k Hk)).
      split; reflexivity. }
    cbn [run foldl step] in *. unfold Grid.render. by rewrite Hl, Herr.
  - cbn [run foldl step].
    rewrite (settle_lookup k (Resolved data) _ 0 (mount_inflight k Hk)).
    erewrite (settle_lookup 0 Rejected _ 0).
    + reflexivity.
    + cbn [inflight]. destruct k as [|[|k]]; [reflexivity|reflexivity|lia].
  - cbn [run foldl step]. apply first_page_replaces_items.
    rewrite (settle_lookup k _ _ 0 (mount_inflight k Hk)). cbn [inflight].
    destruct k as [|[|k]]; [reflexivity|reflexivity|lia].
Qed.

Lemma mount_failure_hides_loaded_items_witness :
  Grid.render (feed (run Grid.mount
    [Settle 1 Rejected; Settle 0 (Resolved (Some [Some (catalogEntry 1)]))])) =
    Grid.ErrorText "Failed to fetch space images".
Proof.
  destruct (mount_failure_hides_loaded_items 1
              (Some [Some (catalogEntry 1)])) as [H _]; [lia|].
  exact H.
Defined.

(** X15. Only a submitted term that differs from the active one makes the
    grid fetch: typing in the box, emptying it, or submitting the active term
    again leaves the feed alone, and a new term resets the feed at once and
    sends the request of offset 0 with that term. *)
Theorem search_refetches_on_new_term (value : string) (term : option string)
    (before : SearchContext.State) (w : World) :
  let after := SearchContext.performSearch term before in
  Grid.searchEffect before (SearchContext.setSearchTerm value before) w = w ∧
  Grid.searchEffect before (SearchContext.clean before) w = w ∧
  (SearchContext.activeSearchTerm after =
     SearchContext.activeSearchTerm before →
   Grid.searchEffect before after w = w) ∧
  (SearchContext.activeSearchTerm after ≠
     SearchContext.activeSearchTerm before →
   images (feed (Grid.searchEffect before after w)) = [] ∧
   loadedIdsRef (feed (Grid.searchEffect before after w)) = ∅ ∧
   requests (Grid.searchEffect before after w) =
     requests w ++
     [fetchParams 0 (Some (default (SearchContext.searchTerm before) term))]).
Proof.
  intros after. unfold Grid.searchEffect. split; [|split; [|split]].
  - by rewrite bool_decide_eq_true_2.
  - by rewrite bool_decide_eq_true_2.
  - intros H. by rewrite bool_decide_eq_true_2.
  - intros H. by rewrite bool_decide_eq_false_2.
Qed.

Lemma search_refetches_on_new_term_witness :
  requests (Grid.searchEffect SearchContext.initial
              (SearchContext.performSearch (Some "nebula")
                 SearchContext.initial) Grid.mount) =
    requests Grid.mount ++ [fetchParams 0 (Some "nebula")].
Proof.
  destruct (search_refetches_on_new_term "" (Some "nebula")
              SearchContext.initial Grid.mount) as (_ & _ & _ & H).
  destruct H as (_ & _ & H); [discriminate|]. exact H.
Defined.

(** ** The search box *)

(** A filter that every element passes keeps the list. *)
Lemma filter_all {A} (P : A → Prop) `{!∀ x, Decision (P x)} (l : list A) :
  (∀ x, x ∈ l → P x) → filter P l = l.
Proof.
  induction l as [|x l IH]; intros Hall; [done|].
  rewrite filter_cons_True by (apply Hall; left). f_equal.
  apply IH. intros y Hy. apply Hall. by right.
Qed.

(** Among elements with pairwise different keys, exactly one has a key that
    occurs. *)
Lemma filter_other_keys_length {A} (f : A → string) (x : string)
    (l : list A) :
  NoDup (f <$> l) → x ∈ f <$> l →
  length l = S (length (filter (λ e, f e ≠ x) l)).
Proof.
  induction l as [|e l IH]; [by intros _ ?%elem_of_nil|].
  rewrite fmap_cons.
  intros [He Hnd]%list.NoDup_cons [->|Hin]%elem_of_cons.
  - rewrite filter_cons_False by (intros ?; done).
    rewrite filter_all; [done|].
    intros e' He' Heq. apply He. apply list_elem_of_fmap. by exists e'.
  - assert (f e ≠ x) by (intros Heq; apply He; by rewrite Heq).
    rewrite filter_cons_True by done. simpl. f_equal. by apply IH.
Qed.

(** X16. Deleting an entry of the history.  When the deletion succeeds, the
    entries of the given id, and only they, leave the list, the others keep
    their order, and the total goes down by one (whether or not an entry
    left); with pairwise different ids and the id in the list, exactly one
    entry leaves.  When the deletion is refused or fails, nothing changes. *)
Theorem delete_removes_exactly_that_entry (searchId : string)
    (r : SearchBox.DeleteResponse) (b : SearchBox.State) :
  let b' := SearchBox.handleDeleteHistoryItem_settle searchId
              (SearchBox.DeleteResolved r) b in
  (SearchBox.d_success r = true →
   (∀ e, e ∈ SearchBox.searchHistory b' ↔
         e ∈ SearchBox.searchHistory b ∧ SearchBox.id e ≠ searchId) ∧
   sublist (SearchBox.searchHistory b') (SearchBox.searchHistory b) ∧
   SearchBox.total b' = (SearchBox.total b - 1)%Z ∧
   (NoDup (SearchBox.id <$> SearchBox.searchHistory b) →
    searchId ∈ SearchBox.id <$> SearchBox.searchHistory b →
    length (SearchBox.searchHistory b) =
      S (length (SearchBox.searchHistory b')))) ∧
  (SearchBox.d_success r = false → b' = b) ∧
  SearchBox.handleDeleteHistoryItem_settle searchId SearchBox.DeleteRejected b
    = b.
Proof.
  intros b'. unfold b'. simpl. split; [|split; [|done]].
  - intros ->. simpl. split; [|split; [|split; [done|]]].
    + intros e. by rewrite list_elem_of_filter, (comm and).
    + apply sublist_filter.
    + apply filter_other_keys_length.
  - by intros ->.
Qed.

Lemma delete_removes_exactly_that_entry_witness :
  let b := SearchBox.setSearchHistory
             [SearchBox.mkEntry "a" "moon" "" "";
              SearchBox.mkEntry "b" "mars" "" "";
              SearchBox.mkEntry "c" "moon" "" ""] SearchBox.initialState in
  SearchBox.searchHistory
    (SearchBox.handleDeleteHistoryItem_settle "b"
       (SearchBox.DeleteResolved (SearchBox.mkDeleteResponse true "deleted"))
       b) =
    [SearchBox.mkEntry "a" "moon" "" ""; SearchBox.mkEntry "c" "moon" "" ""] ∧
  length (SearchBox.searchHistory b) =
    S (length (SearchBox.searchHistory
         (SearchBox.handleDeleteHistoryItem_settle "b"
            (SearchBox.DeleteResolved
               (SearchBox.mkDeleteResponse true "deleted")) b))).
Proof.
  intros b. split; [reflexivity|].
  destruct (delete_removes_exactly_that_entry "b"
              (SearchBox.mkDeleteResponse true "deleted") b) as [H _].
  destruct (H eq_refl) as (_ & _ & _ & Hlen).
  apply Hlen.
  - vm_compute. repeat constructor; set_solver.
  - vm_compute. right. left.
Defined.

(** The fetch that a call has just suspended is the last one pending. *)
Lemma settleHistory_started (loadMore : bool) (a : SearchBox.HistoryAnswer)
    (w : SearchBox.World) :
  SearchBox.settleHistory (length (SearchBox.pendingHistory w)) a
    (SearchBox.fetchSearchHistory loadMore w) =
  SearchBox.mkWorld
    (SearchBox.fetchSearchHistory_settle loadMore
       (if loadMore then SearchBox.offset (SearchBox.box w) else 0) a
       (SearchBox.box (SearchBox.fetchSearchHistory loadMore w)))
    (SearchBox.search w) (SearchBox.armed w) (SearchBox.nextTimer w)
    (SearchBox.historyRequests w ++
       [SearchBox.mkParams
          (if loadMore then SearchBox.offset (SearchBox.box w) else 0)
          SearchBox.ITEMS_PER_PAGE])
    (SearchBox.pendingHistory w) (SearchBox.deleteRequests w)
    (SearchBox.pendingDeletes w).
Proof.
  unfold SearchBox.settleHistory. cbn [SearchBox.fetchSearchHistory
    SearchBox.pendingHistory].
  rewrite list_lookup_middle by done.
  rewrite delete_middle, app_nil_r. reflexivity.
Qed.

(** X17. Paging through the history.  A fetch that succeeds sets the total
    to the one of the response.  A fresh fetch replaces the list by the
    entries of the response and sets the offset to [ITEMS_PER_PAGE]; a fetch
    of more appends them and moves the offset on by [ITEMS_PER_PAGE], however
    many entries came.  [hasMore] tells whether the entries loaded so far
    (the offset asked for plus the entries of the response) are fewer than
    the total. *)
Theorem history_pages (loadMore : bool) (r : SearchBox.SearchHistoryResponse)
    (w : SearchBox.World) :
  SearchBox.r_success r = true →
  let b := SearchBox.box w in
  let w' := SearchBox.settleHistory (length (SearchBox.pendingHistory w))
              (SearchBox.HistoryResolved r)
              (SearchBox.fetchSearchHistory loadMore w) in
  let b' := SearchBox.box w' in
  SearchBox.historyRequests w' =
    SearchBox.historyRequests w ++
    [SearchBox.mkParams (if loadMore then SearchBox.offset b else 0)
                        SearchBox.ITEMS_PER_PAGE] ∧
  SearchBox.searchHistory b' =
    (if loadMore then SearchBox.searchHistory b else []) ++
    SearchBox.r_data r ∧
  SearchBox.offset b' =
    (if loadMore then SearchBox.offset b else 0) + SearchBox.ITEMS_PER_PAGE ∧
  SearchBox.total b' = SearchBox.r_total r ∧
  SearchBox.hasMore b' =
    bool_decide
      (Z.of_nat ((if loadMore then SearchBox.offset b else 0) +
                 length (SearchBox.r_data r)) < SearchBox.r_total r)%Z ∧
  SearchBox.isLoadingHistory b' = false ∧
  SearchBox.isLoadingMore b' = false.
Proof.
  intros Hr b w' b'. unfold b', w'. rewrite settleHistory_started.
  cbn [SearchBox.box SearchBox.historyRequests].
  unfold SearchBox.fetchSearchHistory_settle,
    SearchBox.fetchSearchHistory_resolved. rewrite Hr.
  by destruct loadMore.
Qed.

Lemma history_pages_witness :
  let r := SearchBox.mkResponse true [SearchBox.mkEntry "a" "moon" "" ""] 31 in
  let w := SearchBox.handleDropdownLeave SearchBox.initialWorld in
  SearchBox.offset (SearchBox.box
    (SearchBox.settleHistory (length (SearchBox.pendingHistory w))
       (SearchBox.HistoryResolved r) (SearchBox.fetchSearchHistory true w))) =
    0 + SearchBox.ITEMS_PER_PAGE.
Proof.
  intros r w. apply (history_pages true r w). reflexivity.
Defined.

(** X18. A fetch of the history that fails, or whose response is not a
    success, changes neither the list, the offset, the total nor [hasMore]
    from what they were when it was started, and clears both loading flags.
    Since a fresh fetch empties the list and sets [hasMore] when it starts,
    a fresh fetch that fails leaves no history in the dropdown, whatever was
    there before. *)
Theorem history_failure (loadMore : bool) (a : SearchBox.HistoryAnswer)
    (w : SearchBox.World) :
  (a = SearchBox.HistoryRejected ∨
   ∃ r, a = SearchBox.HistoryResolved r ∧ SearchBox.r_success r = false) →
  let b := SearchBox.box w in
  let b' := SearchBox.box
              (SearchBox.settleHistory (length (SearchBox.pendingHistory w)) a
                 (SearchBox.fetchSearchHistory loadMore w)) in
  SearchBox.searchHistory b' =
    (if loadMore then SearchBox.searchHistory b else []) ∧
  SearchBox.offset b' = (if loadMore then SearchBox.offset b else 0) ∧
  SearchBox.hasMore b' = (if loadMore then SearchBox.hasMore b else true) ∧
  SearchBox.total b' = SearchBox.total b ∧
  SearchBox.isLoadingHistory b' = false ∧
  SearchBox.isLoadingMore b' = false.
Proof.
  intros Ha b b'. unfold b'. rewrite settleHistory_started.
  cbn [SearchBox.box].
  unfold SearchBox.fetchSearchHistory_settle,
    SearchBox.fetchSearchHistory_resolved.
  destruct Ha as [->|(r & -> & Hr)]; [|rewrite Hr]; by destruct loadMore.
Qed.

Lemma history_failure_witness :
  let w := SearchBox.withBox
             (SearchBox.setSearchHistory [SearchBox.mkEntry "a" "moon" "" ""])
             SearchBox.initialWorld in
  SearchBox.searchHistory (SearchBox.box
    (SearchBox.settleHistory (length (SearchBox.pendingHistory w))
       SearchBox.HistoryRejected (SearchBox.fetchSearchHistory false w))) = [].
Proof.
  intros w. apply (history_failure false SearchBox.HistoryRejected w).
  by left.
Defined.

Section SearchBoxInvariants.
Import SearchBox.

Lemma history_inv_fetch (loadMore : bool) (w : World) :
  history_inv w → history_inv (fetchSearchHistory loadMore w).
Proof.
  intros (Ho & Hr & Hp). unfold history_inv. cbn [fetchSearchHistory box
    historyRequests pendingHistory].
  destruct loadMore; cbn.
  - split; [done|]. split; apply Forall_app; (split; [done|]);
      by repeat constructor.
  - split; [apply Nat.divide_0_r|].
    split; apply Forall_app; (split; [done|]);
      repeat constructor; apply Nat.divide_0_r.
Qed.

Lemma history_inv_withBox (f : State → State) (w : World) :
  (∀ b, offset (f b) = offset b) → history_inv w → history_inv (withBox f w).
Proof. intros Hf (Ho & Hr & Hp). unfold history_inv. cbn. by rewrite Hf. Qed.

Lemma history_inv_clear (w : World) :
  history_inv w → history_inv (clearHideTimeout w).
Proof. intros H. unfold clearHideTimeout. by destruct (hideTimeoutRef _). Qed.

Lemma history_inv_step (w : World) (e : Event) :
  history_inv w → history_inv (step w e).
Proof.
  intros H. destruct e; cbn [step].
  - unfold handleInputChange.
    destruct (showHistory _); [by apply history_inv_withBox|done].
  - apply history_inv_fetch, history_inv_withBox; [done|].
    by apply history_inv_clear.
  - by apply history_inv_clear in H.
  - by apply history_inv_clear.
  - by apply history_inv_withBox.
  - done.
  - done.
  - done.
  - unfold handleKeyDown. by destruct (bool_decide _).
  - unfold observerCallback.
    destruct (_ && _); [by apply history_inv_fetch|done].
  - unfold timerFires. by destruct (bool_decide _).
  - unfold settleHistory.
    destruct (pendingHistory w !! k) as [[lm co]|] eqn:Hk; [|done].
    destruct H as (Ho & Hr & Hp). unfold history_inv. cbn.
    split; [|split; [done|by apply Forall_delete]].
    assert (Hco : Nat.divide ITEMS_PER_PAGE co).
    { by apply (Forall_lookup_1 _ _ _ _ Hp Hk). }
    unfold fetchSearchHistory_settle, fetchSearchHistory_resolved.
    destruct a as [r|]; [|done]. destruct (r_success r); [|done].
    destruct lm; cbn.
    + apply Nat.divide_add_r; [done|apply Nat.divide_refl].
    + apply Nat.divide_refl.
  - unfold settleDelete. destruct (pendingDeletes w !! k); [|done].
    destruct H as (Ho & Hr & Hp). unfold history_inv. cbn.
    split; [|done]. unfold handleDeleteHistoryItem_settle.
    destruct a as [r|]; [|done]. by destruct (d_success r).
Qed.

Lemma history_inv_run (es : list Event) (w : World) :
  history_inv w → history_inv (run w es).
Proof.
  revert w. induction es as [|e es IH]; intros w H; [done|].
  cbn. by apply IH, history_inv_step.
Qed.

Lemma timer_inv_withBox (f : State → State) (w : World) :
  (∀ b, hideTimeoutRef (f b) = hideTimeoutRef b) →
  timer_inv w → timer_inv (withBox f w).
Proof. intros Hf H t Ht. cbn in *. rewrite Hf. by apply H. Qed.

Lemma clearHideTimeout_disarms (w : World) :
  timer_inv w → armed (clearHideTimeout w) = ∅.
Proof.
  intros H. unfold clearHideTimeout.
  destruct (hideTimeoutRef (box w)) as [t|] eqn:Ht; cbn.
  - apply set_eq. intros t'. split; [|set_solver].
    intros [Hin Hne]%elem_of_difference. apply H in Hin. set_solver.
  - apply set_eq. intros t'. split; [|set_solver].
    intros Hin%H. congruence.
Qed.

Lemma timer_inv_clear (w : World) : timer_inv w → timer_inv (clearHideTimeout w).
Proof.
  intros H t. rewrite clearHideTimeout_disarms by done. set_solver.
Qed.

Lemma timer_inv_fetch (loadMore : bool) (w : World) :
  timer_inv w → timer_inv (fetchSearchHistory loadMore w).
Proof. intros H t Ht. cbn in *. destruct loadMore; by apply H. Qed.

Lemma timer_inv_step (w : World) (e : Event) : timer_inv w → timer_inv (step w e).
Proof.
  intros H. destruct e; cbn [step].
  - unfold handleInputChange.
    destruct (showHistory _); [by apply timer_inv_withBox|done].
  - apply timer_inv_fetch, timer_inv_withBox; [done|].
    by apply timer_inv_clear.
  - unfold handleHistoryLeave, scheduleHide. intros t. cbn.
    rewrite clearHideTimeout_disarms by done. set_solver.
  - by apply timer_inv_clear.
  - by apply timer_inv_withBox.
  - done.
  - done.
  - done.
  - unfold handleKeyDown. by destruct (bool_decide _).
  - unfold observerCallback.
    destruct (_ && _); [by apply timer_inv_fetch|done].
  - unfold timerFires. destruct (bool_decide _); [|done].
    intros t' [Hin _]%elem_of_difference. cbn. by apply H.
  - unfold settleHistory.
    destruct (pendingHistory w !! k) as [[lm co]|]; [|done].
    intros t Ht. cbn in *.
    unfold fetchSearchHistory_settle, fetchSearchHistory_resolved.
    destruct a as [r|]; [destruct (r_success r), lm|]; by apply H.
  - unfold settleDelete. destruct (pendingDeletes w !! k); [|done].
    intros t Ht. cbn in *. unfold handleDeleteHistoryItem_settle.
    destruct a as [r|]; [destruct (d_success r)|]; by apply H.
Qed.

Lemma timer_inv_run (es : list Event) (w : World) :
  timer_inv w → timer_inv (run w es).
Proof.
  revert w. induction es as [|e es IH]; intros w H; [done|].
  cbn. by apply IH, timer_inv_step.
Qed.

Lemma timer_inv_initial : timer_inv initialWorld.
Proof. intros t. cbn. set_solver. Qed.

Lemma history_inv_initial : history_inv initialWorld.
Proof.
  split; [apply Nat.divide_0_r|]. split; constructor.
Qed.

End SearchBoxInvariants.

(** X19. In a session of the search box, the offset of the history and the
    offset of every request for the history are multiples of
    [ITEMS_PER_PAGE], and every request asks for [ITEMS_PER_PAGE] entries:
    the offsets do not follow the number of entries that arrived or were
    deleted. *)
Theorem history_offsets_are_multiples (es : list SearchBox.Event) :
  let w := SearchBox.run SearchBox.initialWorld es in
  Nat.divide SearchBox.ITEMS_PER_PAGE (SearchBox.offset (SearchBox.box w)) ∧
  Forall (λ p, SearchBox.p_limit p = SearchBox.ITEMS_PER_PAGE ∧
               Nat.divide SearchBox.ITEMS_PER_PAGE (SearchBox.p_offset p))
         (SearchBox.historyRequests w).
Proof.
  intros w.
  destruct (history_inv_run es SearchBox.initialWorld history_inv_initial)
    as (Ho & Hr & _).
  by split.
Qed.

(** X20. The timer that hides the history.  In a session at most the timer
    that the ref holds is armed.  So after the pointer has entered the
    dropdown, no timer that fires changes anything; after it has come over
    the history icon, the history stays shown whatever timer fires; and
    after it has left the icon, the timer then set hides the history when it
    fires. *)
Theorem hide_timer (es : list SearchBox.Event) (t : nat) :
  let w := SearchBox.run SearchBox.initialWorld es in
  (t ∈ SearchBox.armed w →
     SearchBox.hideTimeoutRef (SearchBox.box w) = Some t) ∧
  SearchBox.timerFires t (SearchBox.handleDropdownEnter w) =
    SearchBox.handleDropdownEnter w ∧
  SearchBox.showHistory (SearchBox.box
    (SearchBox.timerFires t (SearchBox.handleHistoryHover w))) = true ∧
  SearchBox.showHistory (SearchBox.box
    (SearchBox.timerFires (SearchBox.nextTimer w)
       (SearchBox.handleHistoryLeave w))) = false.
Proof.
  intros w.
  pose proof (timer_inv_run es SearchBox.initialWorld timer_inv_initial)
    as Hinv. fold w in Hinv.
  pose proof (clearHideTimeout_disarms w Hinv) as Hnone.
  split; [apply Hinv|]. split; [|split].
  - unfold SearchBox.handleDropdownEnter, SearchBox.timerFires.
    rewrite Hnone. by rewrite bool_decide_eq_false_2 by set_solver.
  - unfold SearchBox.handleHistoryHover, SearchBox.timerFires.
    cbn [SearchBox.fetchSearchHistory SearchBox.armed SearchBox.withBox].
    rewrite Hnone. by rewrite bool_decide_eq_false_2 by set_solver.
  - unfold SearchBox.handleHistoryLeave, SearchBox.scheduleHide,
      SearchBox.timerFires. cbn [SearchBox.armed].
    assert (Hn : SearchBox.nextTimer (SearchBox.clearHideTimeout w) =
                 SearchBox.nextTimer w).
    { unfold SearchBox.clearHideTimeout.
      by destruct (SearchBox.hideTimeoutRef _). }
    rewrite Hn. by rewrite bool_decide_eq_true_2 by set_solver.
Qed.

Lemma hide_timer_witness :
  SearchBox.hideTimeoutRef (SearchBox.box
    (SearchBox.run SearchBox.initialWorld
       [SearchBox.HistoryHover; SearchBox.HistoryLeave])) = Some 1.
Proof.
  apply (hide_timer [SearchBox.HistoryHover; SearchBox.HistoryLeave] 1).
  vm_compute. reflexivity.
Defined.




(** X22. The active search term changes only when a term is submitted: by
    the search button or the Enter key, which submit the text of the input
    and leave it as it is, or by a click on an entry of the history, which
    puts the term of the entry into the input too.  Each of these hides the
    history.  Typing changes the text of the input only, and hides the
    history. *)
Theorem active_term_changes_only_on_submit (w : SearchBox.World)
    (e : SearchBox.Event) (text : string) :
  let before := SearchBox.search w in
  let after := SearchBox.search (SearchBox.step w e) in
  (isSubmit e = false →
   SearchContext.activeSearchTerm after =
     SearchContext.activeSearchTerm before) ∧
  (e = SearchBox.SearchClick ∨ e = SearchBox.KeyDown "Enter" →
   SearchContext.activeSearchTerm after = SearchContext.searchTerm before ∧
   SearchContext.searchTerm after = SearchContext.searchTerm before ∧
   SearchBox.showHistory (SearchBox.box (SearchBox.step w e)) = false) ∧
  (e = SearchBox.HistoryItemClick text →
   SearchContext.activeSearchTerm after = text ∧
   SearchContext.searchTerm after = text ∧
   SearchBox.showHistory (SearchBox.box (SearchBox.step w e)) = false) ∧
  (e = SearchBox.InputChange text →
   SearchContext.searchTerm after = text ∧
   SearchBox.showHistory (SearchBox.box (SearchBox.step w e)) = false).
Proof.
  intros before after. unfold after, before. split; [|split; [|split]].
  - assert (Hclear : ∀ w', SearchBox.search (SearchBox.clearHideTimeout w') =
                           SearchBox.search w').
    { intros w'. unfold SearchBox.clearHideTimeout.
      by destruct (SearchBox.hideTimeoutRef _). }
    destruct e; cbn [isSubmit SearchBox.step]; try discriminate; intros Hs.
    + unfold SearchBox.handleInputChange. by destruct (SearchBox.showHistory _).
    + unfold SearchBox.handleHistoryHover.
      cbn [SearchBox.fetchSearchHistory SearchBox.search SearchBox.withBox].
      by rewrite Hclear.
    + unfold SearchBox.handleHistoryLeave, SearchBox.scheduleHide.
      cbn [SearchBox.search]. by rewrite Hclear.
    + unfold SearchBox.handleDropdownEnter. by rewrite Hclear.
    + done.
    + done.
    + unfold SearchBox.handleKeyDown. by rewrite Hs.
    + unfold SearchBox.observerCallback. by destruct (_ && _).
    + unfold SearchBox.timerFires. by destruct (bool_decide _).
    + unfold SearchBox.settleHistory.
      by destruct (SearchBox.pendingHistory w !! k) as [[??]|].
    + unfold SearchBox.settleDelete.
      by destruct (SearchBox.pendingDeletes w !! k).
  - by intros [->| ->].
  - by intros ->.
  - intros ->. cbn [SearchBox.step]. unfold SearchBox.handleInputChange.
    cbn [SearchBox.withSearch SearchBox.box].
    destruct (SearchBox.showHistory (SearchBox.box w)) eqn:Hs; [done|].
    by cbn.
Qed.

Lemma active_term_changes_only_on_submit_witness :
  SearchContext.activeSearchTerm (SearchBox.search
    (SearchBox.step (SearchBox.handleInputChange "nebula" SearchBox.initialWorld)
       (SearchBox.KeyDown "Enter"))) = "nebula".
Proof.
  destruct (active_term_changes_only_on_submit
              (SearchBox.handleInputChange "nebula" SearchBox.initialWorld)
              (SearchBox.KeyDown "Enter") "") as (_ & H & _).
  destruct H as [H _]; [by right|]. exact H.
Defined.

(** ** The client of the remote interface *)

(** X23. The token is stored and read back: after [setAuthToken] the token
    is the stored one, and the user counts as authenticated exactly when the
    token is not empty; after [removeAuthToken] there is no token and the
    user is not authenticated; and setting then removing a token leaves the
    client as removing alone does. *)
Theorem auth_token_round_trip (token : string) (c : Api.Client) :
  Api.getAuthToken (Api.setAuthToken token c) = Some token ∧
  Api.isAuthenticated (Api.setAuthToken token c) = JsString.truthy token ∧
  Api.getAuthToken (Api.removeAuthToken c) = None ∧
  Api.isAuthenticated (Api.removeAuthToken c) = false ∧
  Api.removeAuthToken (Api.setAuthToken token c) = Api.removeAuthToken c.
Proof.
  unfold Api.getAuthToken, Api.isAuthenticated, Api.setAuthToken,
    Api.removeAuthToken. cbn [Api.localStorage Api.commonHeaders].
  rewrite !lookup_insert_eq, !lookup_delete_eq, !delete_insert_eq. done.
Qed.

(** X24. The request interceptor.  With a non-empty token stored, every
    request gets the header [Authorization: Bearer <token>], whatever it
    carried under that name, and its other headers are left alone; with no
    token, or an empty one, the headers are left as they are. *)
Theorem request_carries_the_token (token key : string) (c : Api.Client)
    (headers : gmap string string) :
  (token ≠ "" →
   Api.requestInterceptor (Api.setAuthToken token c) headers
     !! "Authorization" = Some ("Bearer " +:+ token) ∧
   (key ≠ "Authorization" →
    Api.requestInterceptor (Api.setAuthToken token c) headers !! key =
      headers !! key)) ∧
  Api.requestInterceptor (Api.setAuthToken "" c) headers = headers ∧
  Api.requestInterceptor (Api.removeAuthToken c) headers = headers.
Proof.
  unfold Api.requestInterceptor, Api.setAuthToken, Api.removeAuthToken.
  cbn [Api.localStorage]. rewrite !lookup_insert_eq, lookup_delete_eq.
  split; [|done]. intros Htoken.
  destruct token as [|a token]; [done|]. cbn [JsString.truthy].
  split; [by rewrite lookup_insert_eq|].
  intros Hkey. by rewrite lookup_insert_ne.
Qed.

Lemma request_carries_the_token_witness :
  Api.requestInterceptor (Api.setAuthToken "abc" (Api.mkClient ∅ ∅))
    {["Authorization" := "Bearer old"]} !! "Authorization" =
    Some "Bearer abc".
Proof.
  destruct (request_carries_the_token "abc" "Accept" (Api.mkClient ∅ ∅)
              {["Authorization" := "Bearer old"]}) as [H _].
  destruct H as [H _]; [discriminate|]. exact H.
Defined.

(** X25. A response of status 401 evicts the stored token: the user is no
    longer authenticated and the interceptor adds no header; but, unlike
    [removeAuthToken], it leaves the default [Authorization] header that
    [setAuthToken] had set.  An error of another status, or without a
    response, changes nothing. *)
Theorem unauthorized_evicts_the_stored_token (status : option nat)
    (token : string) (c : Api.Client) (headers : gmap string string) :
  let c' := Api.responseErrorInterceptor (Some 401)
              (Api.setAuthToken token c) in
  Api.getAuthToken c' = None ∧
  Api.isAuthenticated c' = false ∧
  Api.requestInterceptor c' headers = headers ∧
  Api.commonHeaders c' !! "Authorization" = Some ("Bearer " +:+ token) ∧
  Api.commonHeaders (Api.removeAuthToken (Api.setAuthToken token c))
    !! "Authorization" = None ∧
  (status ≠ Some 401 → Api.responseErrorInterceptor status c = c).
Proof.
  unfold Api.responseErrorInterceptor, Api.getAuthToken, Api.isAuthenticated,
    Api.requestInterceptor, Api.setAuthToken, Api.removeAuthToken.
  rewrite bool_decide_eq_true_2 by done.
  cbn [Api.localStorage Api.commonHeaders].
  rewrite !lookup_delete_eq, lookup_insert_eq.
  repeat (split; [done|]).
  intros Hs. by rewrite bool_decide_eq_false_2.
Qed.

Lemma unauthorized_evicts_the_stored_token_witness :
  Api.responseErrorInterceptor (Some 500)
    (Api.setAuthToken "abc" (Api.mkClient ∅ ∅)) =
  Api.setAuthToken "abc" (Api.mkClient ∅ ∅).
Proof.
  apply (unauthorized_evicts_the_stored_token (Some 500) ""
           (Api.setAuthToken "abc" (Api.mkClient ∅ ∅)) ∅).
  discriminate.
Defined.

(** ** The detail view *)

Section ImageViewSource.
Import ImageView.

Lemma prefix_append (a b : string) :
  String.prefix a b = true ↔ ∃ r, b = a +:+ r.
Proof.
  revert b. induction a as [|c a IH]; intros b.
  - split; [by exists b|]. by destruct b.
  - destruct b as [|c' b]; simpl.
    + split; [done|]. by intros [r ?].
    + destruct (Ascii.ascii_dec c c') as [->|Hne].
      * rewrite IH. split; intros [r Hr]; exists r.
        -- by rewrite append_cons, Hr.
        -- rewrite append_cons in Hr. by simplify_eq.
      * split; [done|]. intros [r Hr]. rewrite append_cons in Hr.
        by simplify_eq.
Qed.

Lemma endsWith_append (s suffix : string) :
  endsWith s suffix = true ↔ ∃ p, s = p +:+ suffix.
Proof.
  unfold endsWith. rewrite prefix_append. split.
  - intros [r Hr]. exists (String.rev r).
    by rewrite <- (rev_involutive s), Hr, rev_append, rev_involutive.
  - intros [p ->]. exists (String.rev p). by rewrite rev_append.
Qed.

Lemma toLowerCase_append (x y : string) :
  toLowerCase (x +:+ y) = toLowerCase x +:+ toLowerCase y.
Proof.
  induction x as [|c x IH]; [done|].
  rewrite append_cons. simpl. by rewrite IH, append_cons.
Qed.

Lemma toLowerCase_split (u x y : string) :
  toLowerCase u = x +:+ y →
  ∃ u1 u2, u = u1 +:+ u2 ∧ toLowerCase u1 = x ∧ toLowerCase u2 = y.
Proof.
  revert u. induction x as [|c x IH]; intros u.
  - intros H. by exists "", u.
  - destruct u as [|a u]; [done|]. rewrite append_cons. simpl.
    intros [= Hc H]. apply IH in H as (u1 & u2 & -> & Hx & Hy).
    exists (String a u1), u2. by rewrite append_cons, <- Hc, <- Hx.
Qed.

Lemma lowerChar_dot (c : ascii) : lowerChar c = "."%char ↔ c = "."%char.
Proof.
  split; [|by intros ->].
  destruct c as [[] [] [] [] [] [] [] []]; vm_compute; congruence.
Qed.

Lemma lowerChar_t (c : ascii) :
  lowerChar c = "t"%char ↔ c = "t"%char ∨ c = "T"%char.
Proof.
  split; [|by intros [->| ->]].
  destruct c as [[] [] [] [] [] [] [] []]; vm_compute; intros ?;
    first [by left | by right | congruence].
Qed.

Lemma lowerChar_i (c : ascii) :
  lowerChar c = "i"%char ↔ c = "i"%char ∨ c = "I"%char.
Proof.
  split; [|by intros [->| ->]].
  destruct c as [[] [] [] [] [] [] [] []]; vm_compute; intros ?;
    first [by left | by right | congruence].
Qed.

Lemma lowerChar_f (c : ascii) :
  lowerChar c = "f"%char ↔ c = "f"%char ∨ c = "F"%char.
Proof.
  split; [|by intros [->| ->]].
  destruct c as [[] [] [] [] [] [] [] []]; vm_compute; intros ?;
    first [by left | by right | congruence].
Qed.

(** The test of [getImageSrc] for a TIFF address. *)
Lemma endsWith_tif (u : string) :
  endsWith (toLowerCase u) ".tif" = true ↔
  ∃ p t i f, u = p +:+ String "." (String t (String i (String f ""))) ∧
             (t = "t" ∨ t = "T")%char ∧ (i = "i" ∨ i = "I")%char ∧
             (f = "f" ∨ f = "F")%char.
Proof.
  rewrite endsWith_append. split.
  - intros [p (u1 & u2 & -> & _ & H2)%toLowerCase_split].
    destruct u2 as [|d [|t [|i [|f [|]]]]]; try discriminate.
    simpl in H2. injection H2 as Hd Ht Hi Hf.
    apply (proj1 (lowerChar_dot _)) in Hd. apply (proj1 (lowerChar_t _)) in Ht.
    apply (proj1 (lowerChar_i _)) in Hi. apply (proj1 (lowerChar_f _)) in Hf.
    rewrite Hd.
    by exists u1, t, i, f.
  - intros (p & t & i & f & -> & Ht & Hi & Hf).
    exists (toLowerCase p). rewrite toLowerCase_append. simpl.
    apply (proj2 (lowerChar_t _)) in Ht. apply (proj2 (lowerChar_i _)) in Hi.
    apply (proj2 (lowerChar_f _)) in Hf.
    by rewrite Ht, Hi, Hf.
Qed.

End ImageViewSource.

(** X26. The address the detail view displays.  Without a selected record it
    is empty.  It is the [image_url] of the record when the record has no
    canonical address, or an empty one, or one whose last four characters
    are [.tif] in whatever mix of upper and lower case; otherwise it is the
    canonical address. *)
Theorem getImageSrc_avoids_tiff (d : ImageView.ImageViewData) (u : string) :
  ImageView.getImageSrc None = Some "" ∧
  (ImageView.canonical_url d = None ∨ ImageView.canonical_url d = Some "" →
   ImageView.getImageSrc (Some d) = ImageView.image_url d) ∧
  (ImageView.canonical_url d = Some u → u ≠ "" →
   ((∃ p t i f,
       u = p +:+ String "." (String t (String i (String f ""))) ∧
       (t = "t" ∨ t = "T")%char ∧ (i = "i" ∨ i = "I")%char ∧
       (f = "f" ∨ f = "F")%char) →
    ImageView.getImageSrc (Some d) = ImageView.image_url d) ∧
   ((¬ ∃ p t i f,
       u = p +:+ String "." (String t (String i (String f ""))) ∧
       (t = "t" ∨ t = "T")%char ∧ (i = "i" ∨ i = "I")%char ∧
       (f = "f" ∨ f = "F")%char) →
    ImageView.getImageSrc (Some d) = Some u)).
Proof.
  split; [done|]. unfold ImageView.getImageSrc. split.
  - by intros [->| ->].
  - intros -> Hu. cbn [from_option]. unfold Datatypes.id.
    assert (Ht : JsString.truthy u = true) by by destruct u.
    rewrite Ht. cbn [andb]. split.
    + intros H%endsWith_tif. by rewrite H.
    + intros H. destruct (ImageView.endsWith _ _) eqn:He; [|done].
      by apply endsWith_tif in He.
Qed.

Lemma getImageSrc_avoids_tiff_witness :
  let d := ImageView.mkImageViewData "1" "" "" "" (Some "thumb.jpg")
             (Some "https://x/scan.TiF") "" [] "" false None in
  ImageView.getImageSrc (Some d) = Some "thumb.jpg".
Proof.
  intros d.
  destruct (getImageSrc_avoids_tiff d "https://x/scan.TiF") as (_ & _ & H).
  destruct H as [H _]; [reflexivity|discriminate|].
  apply H. exists "https://x/scan", "T"%char, "i"%char, "F"%char.
  split; [reflexivity|]. split; [by right|]. split; [by left|by right].
Defined.
